(** * custom_helper: a shallow embedding of [src/custom_helper.py]

  The development follows the layout of the Python module:

  - [Re]      : the fragment of Python's [re] module used by
                [regex_strip_legalname] (a backtracking matcher and
                [re.sub]), together with its declarative semantics;
  - [Names]   : [regex_strip_legalname] and its pattern;
  - [Lists]   : [list_flatten], [list_remove_duplicates], [list_batch];
  - [Dates]   : [date_add_year] over a model of [datetime.date];
  - [Countdown] : [sleep_countdown] over the seconds slept and the text
                written to [sys.stdout].

  Python strings are modelled as [string]; a character [c : ascii] stands
  for the code point U+0000..U+00FF with the same number.  The classes
  [\s], [\w] and the assertion [\b] are the ones Python uses for [str]
  patterns (Unicode tables, restricted to these code points). *)

From Stdlib Require Import Bool Arith ZArith NArith Lia List Ascii String.
From Stdlib Require Import DecimalString.
Import ListNotations.

Open Scope string_scope.

(* ================================================================== *)
(** * Strings *)

Module Str.

(** The character just before the end of [a], if any: what a
    look-behind sees after [a] has been read. *)
Fixpoint last (p : option ascii) (a : string) : option ascii :=
  match a with
  | EmptyString => p
  | String c a' => last (Some c) a'
  end.

(** [a] is obtained from [b] by deleting characters: what is left keeps
    its order. *)
Inductive Subseq : string -> string -> Prop :=
| SubseqNil : Subseq "" ""
| SubseqDrop c a b : Subseq a b -> Subseq a (String c b)
| SubseqKeep c a b : Subseq a b -> Subseq (String c a) (String c b).

End Str.

(* ================================================================== *)
(** * The [re] fragment *)

Module Re.

(** ** Character classes *)

Definition code (c : ascii) : N := N_of_ascii c.

Definition between (lo hi : N) (c : ascii) : bool :=
  ((lo <=? code c) && (code c <=? hi))%N.

(** [\s] for [str] patterns: [str.isspace] on U+0000..U+00FF. *)
Definition is_space (c : ascii) : bool :=
  between 9 13 c || between 28 32 c || between 133 133 c
  || between 160 160 c.

(** [\w] for [str] patterns: [str.isalnum] or the underscore. *)
Definition is_word (c : ascii) : bool :=
  between 48 57 c || between 65 90 c || between 95 95 c
  || between 97 122 c
  || between 170 170 c || between 178 179 c || between 181 181 c
  || between 185 186 c || between 188 190 c || between 192 214 c
  || between 216 246 c || between 248 255 c.

Inductive cclass : Set :=
| Space      (* \s *)
| Word       (* \w *)
| NonWord.   (* \W *)

Definition in_class (k : cclass) (c : ascii) : bool :=
  match k with
  | Space => is_space c
  | Word => is_word c
  | NonWord => negb (is_word c)
  end.

(** ** Patterns *)

Inductive regex : Set :=
| Fail                       (* the empty alternation *)
| Eps                        (* the empty pattern *)
| Chr (c : ascii)            (* a literal character *)
| Cls (k : cclass)           (* \s \w \W *)
| Bnd                        (* \b *)
| Seq (r1 r2 : regex)        (* r1 r2 *)
| Alt (r1 r2 : regex)        (* r1|r2 *)
| Star (r : regex)           (* r*  (greedy) *)
| Plus (r : regex)           (* r+  (greedy) *)
| Opt (r : regex).           (* r?  (greedy) *)

(** A literal word, one character after the other. *)
Fixpoint lit (w : string) : regex :=
  match w with
  | EmptyString => Eps
  | String c w' => Seq (Chr c) (lit w')
  end.

(** [r1|r2|...|rn], tried from left to right. *)
Fixpoint alts (rs : list regex) : regex :=
  match rs with
  | [] => Fail
  | r :: rs' => Alt r (alts rs')
  end.

Fixpoint seqs (rs : list regex) : regex :=
  match rs with
  | [] => Eps
  | r :: rs' => Seq r (seqs rs')
  end.

(** ** The matcher

    A position in the subject is the character before it ([None] at the
    start of the string) and the text that is left. *)

Definition is_word_opt (p : option ascii) : bool :=
  match p with
  | Some c => is_word c
  | None => false
  end.

Definition is_word_next (s : string) : bool :=
  match s with
  | String c _ => is_word c
  | EmptyString => false
  end.

(** [\b]: exactly one side of the position is a word character. *)
Definition at_boundary (p : option ascii) (s : string) : bool :=
  xorb (is_word_opt p) (is_word_next s).

Section Matcher.

Context {R : Type}.

(** What remains to be matched after a sub-pattern: it receives the
    position reached and answers with the result of the whole match,
    or [None] to make the matcher backtrack. *)
Definition cont : Type := option ascii -> string -> option R.

Definition orelse (a : option R) (b : option R) : option R :=
  match a with
  | Some x => Some x
  | None => b
  end.

(** Greedy repetition of [body]: one more round is tried first, and the
    rest of the pattern only when no further round leads to a match.  A
    round has to consume a character, so [String.length s] rounds are
    all there can be. *)
Fixpoint repeat_greedy (body : option ascii -> string -> cont -> option R)
    (n : nat) (p : option ascii) (s : string) (k : cont) : option R :=
  match n with
  | O => k p s
  | S n' =>
      orelse
        (body p s (fun p' s' =>
           if (String.length s' <? String.length s)%nat
           then repeat_greedy body n' p' s' k
           else None))
        (k p s)
  end.

Fixpoint rmatch (r : regex) (p : option ascii) (s : string) (k : cont)
    {struct r} : option R :=
  match r with
  | Fail => None
  | Eps => k p s
  | Chr c =>
      match s with
      | String x s' => if Ascii.eqb x c then k (Some x) s' else None
      | EmptyString => None
      end
  | Cls cl =>
      match s with
      | String x s' => if in_class cl x then k (Some x) s' else None
      | EmptyString => None
      end
  | Bnd => if at_boundary p s then k p s else None
  | Seq r1 r2 => rmatch r1 p s (fun p' s' => rmatch r2 p' s' k)
  | Alt r1 r2 => orelse (rmatch r1 p s k) (rmatch r2 p s k)
  | Star r1 => repeat_greedy (rmatch r1) (String.length s) p s k
  | Plus r1 =>
      rmatch r1 p s (fun p' s' =>
        repeat_greedy (rmatch r1) (String.length s') p' s' k)
  | Opt r1 => orelse (rmatch r1 p s k) (k p s)
  end.

End Matcher.

(** One attempt at one position (the engine's [match] at top level):
    the first way to match [r] in the matcher's order, as the position
    right after the match.  With [must_advance] an empty match is
    refused and the matcher backtracks into the pattern. *)
Definition match_here (r : regex) (must_advance : bool)
    (p : option ascii) (s : string) : option (option ascii * string) :=
  rmatch r p s (fun p' s' =>
    if must_advance && (String.length s' =? String.length s)%nat
    then None
    else Some (p', s')).

(** [re.fullmatch r s]: the whole of [s] is one match of [r]. *)
Definition fullmatch (r : regex) (s : string) : bool :=
  match rmatch r None s (fun _ s' =>
          match s' with EmptyString => Some tt | _ => None end) with
  | Some _ => true
  | None => false
  end.

(** ** [re.sub]

    [sub_loop] is the loop of [re.sub(r, repl, s)] with [count = 0]:
    the leftmost match from the current position is replaced by [repl]
    and the scan resumes right after it; a character at which no match
    starts is copied.  After an empty match the next attempt at the same
    position must advance.  ([repl] is a plain string: the source passes
    [''], which has no group references.)  The loop is driven by a step
    budget; [None] is the answer of a run that exhausts it. *)
Fixpoint sub_loop (fuel : nat) (r : regex) (repl : string)
    (must_advance : bool) (p : option ascii) (s : string) : option string :=
  match fuel with
  | O => None
  | S fuel' =>
      match match_here r must_advance p s with
      | Some (p', s') =>
          option_map (append repl)
            (sub_loop fuel' r repl
               (String.length s' =? String.length s)%nat p' s')
      | None =>
          match s with
          | EmptyString => Some EmptyString
          | String c s' =>
              option_map (String c) (sub_loop fuel' r repl false (Some c) s')
          end
      end
  end.

Definition sub_budget (s : string) : nat := 2 * String.length s + 2.

Definition sub (r : regex) (repl : string) (s : string) : option string :=
  sub_loop (sub_budget s) r repl false None s.

(** [re.search r s is not None]: a match starts somewhere in [s]. *)
Fixpoint search_from (r : regex) (p : option ascii) (s : string) : bool :=
  match match_here r false p s with
  | Some _ => true
  | None =>
      match s with
      | EmptyString => false
      | String c s' => search_from r (Some c) s'
      end
  end.

Definition search (r : regex) (s : string) : bool := search_from r None s.

(** [re.search r s] as a match object: the text before the leftmost match
    ([s[:m.start()]]) and the position right after it ([m.end()]). *)
Fixpoint first_match (r : regex) (p : option ascii) (s : string)
    : option (string * (option ascii * string)) :=
  match match_here r false p s with
  | Some e => Some (EmptyString, e)
  | None =>
      match s with
      | EmptyString => None
      | String c s' =>
          match first_match r (Some c) s' with
          | Some (pre, e) => Some (String c pre, e)
          | None => None
          end
      end
  end.

(** ** What a pattern denotes

    [Matches r p m t]: [r] can match the text [m] when the character
    before it is [p] and the text after it is [t].  This says which texts
    a pattern accepts, with no order among the ways to match and no
    budget; the matcher is proved against it below. *)
Inductive Matches : regex -> option ascii -> string -> string -> Prop :=
| MEps p t : Matches Eps p "" t
| MChr c p t : Matches (Chr c) p (String c "") t
| MCls k c p t : in_class k c = true -> Matches (Cls k) p (String c "") t
| MBnd p t : at_boundary p t = true -> Matches Bnd p "" t
| MSeq r1 r2 p m1 m2 t :
    Matches r1 p m1 (m2 ++ t) -> Matches r2 (Str.last p m1) m2 t ->
    Matches (Seq r1 r2) p (m1 ++ m2) t
| MAltL r1 r2 p m t : Matches r1 p m t -> Matches (Alt r1 r2) p m t
| MAltR r1 r2 p m t : Matches r2 p m t -> Matches (Alt r1 r2) p m t
| MStarNil r p t : Matches (Star r) p "" t
| MStarCons r p m1 m2 t :
    Matches r p m1 (m2 ++ t) -> Matches (Star r) (Str.last p m1) m2 t ->
    Matches (Star r) p (m1 ++ m2) t
| MPlus r p m1 m2 t :
    Matches r p m1 (m2 ++ t) -> Matches (Star r) (Str.last p m1) m2 t ->
    Matches (Plus r) p (m1 ++ m2) t
| MOptSome r p m t : Matches r p m t -> Matches (Opt r) p m t
| MOptNone r p t : Matches (Opt r) p "" t.

(** The matcher is sound at [r]: what it answers comes from the
    continuation, called at the end of some match of the pattern. *)
Definition sound_at (R : Type) (r : regex) : Prop :=
  forall p s (k : @cont R) x,
    rmatch r p s k = Some x ->
    exists m t, s = m ++ t /\ Matches r p m t /\ k (Str.last p m) t = Some x.

(** The matcher is complete at [r]: whenever the pattern has a match after
    which the continuation succeeds, the matcher finds some match, so
    backtracking misses nothing. *)
Definition complete_at (R : Type) (r : regex) : Prop :=
  forall p m t (k : @cont R),
    Matches r p m t -> k (Str.last p m) t <> None ->
    rmatch r p (m ++ t) k <> None.

(** The least number of characters a match of [r] consumes. *)
Fixpoint min_len (r : regex) : nat :=
  match r with
  | Fail => 0
  | Eps => 0
  | Chr _ => 1
  | Cls _ => 1
  | Bnd => 0
  | Seq r1 r2 => min_len r1 + min_len r2
  | Alt Fail r2 => min_len r2
  | Alt r1 Fail => min_len r1
  | Alt r1 r2 => Nat.min (min_len r1) (min_len r2)
  | Star _ => 0
  | Plus r1 => min_len r1
  | Opt _ => 0
  end.

(** Every character of [w] is in the class [k]. *)
Fixpoint all_in_class (k : cclass) (w : string) : bool :=
  match w with
  | EmptyString => true
  | String c w' => in_class k c && all_in_class k w'
  end.

End Re.

(* ================================================================== *)
(** * 2. Retrieve data: [regex_strip_legalname] *)

Module Names.

Import Re.

(** [(\s|\.|\,|\&)*] *)
Definition separators : regex :=
  Star (alts [Cls Space; Chr "."; Chr ","; Chr "&"]).

(** The alternatives of the second group, in the order of the source. *)
Definition suffix_tokens : list regex :=
  [ lit ".com";
    lit "Enterprise";
    lit "Worldwide";
    lit "Int'l";
    lit "N.V.";
    lit "LLC";
    Seq (lit "Co") Bnd;
    Seq (lit "Inc") Bnd;
    Seq (lit "Corp") (Star (Cls Word));
    seqs [lit "Group"; Cls Space; lit "Inc"];
    lit "Group";
    lit "Company";
    seqs [lit "Holdings"; Cls Space; lit "Inc"];
    seqs [Cls NonWord; lit "Co"; alts [Cls Space; Chr "."]];
    lit "plc";
    lit "Ltd";
    lit "Int'l.";
    lit "Holdings";
    seqs [Opt (Chr "("); lit "Class"; Cls Space; Plus (Cls Word);
          Opt (Chr ")")] ].

(** [\.?\W?] *)
Definition trailer : regex := Seq (Opt (Chr ".")) (Opt (Cls NonWord)).

Definition pattern : regex :=
  Seq separators (Seq (alts suffix_tokens) trailer).

(** [re.sub(pattern, '', n)] *)
Definition strip_legalname (n : string) : option string :=
  Re.sub pattern "" n.

(** [[re.sub(pattern, '', n) for n in raw_names]] *)
Fixpoint regex_strip_legalname (raw_names : list string)
    : option (list string) :=
  match raw_names with
  | [] => Some []
  | n :: rest =>
      match strip_legalname n with
      | None => None
      | Some n' => option_map (cons n') (regex_strip_legalname rest)
      end
  end.

(** A name that is a suffix token and nothing else: one alternative of
    the second group matches the whole of it. *)
Definition is_suffix_token (n : string) : bool :=
  existsb (fun r => Re.fullmatch r n) suffix_tokens.

(** A suffix occurs in [n]: [re.search(pattern, n)] finds a match. *)
Definition has_suffix (n : string) : bool := Re.search pattern n.

(** The reading of the natural-language description, kept apart from the
    code above for comparison: only the first occurrence is removed
    ([re.sub] with [count = 1]), the text after it is kept as it is. *)
Definition strip_first_only (n : string) : string :=
  match Re.first_match pattern None n with
  | Some (pre, (_, rest)) => pre ++ rest
  | None => n
  end.

(** The tokens of the second group that are plain words of the pattern,
    with no [\b] after them and no character class before them: they are
    matched wherever they stand, also inside a longer word.  ([Corp] is
    the least match of [Corp\w*].) *)
Definition plain_tokens : list string :=
  [ ".com"; "Enterprise"; "Worldwide"; "Int'l"; "N.V."; "LLC"; "Corp";
    "Group"; "Company"; "plc"; "Ltd"; "Holdings" ].

End Names.


(* ================================================================== *)
(** * Exceptions *)

Inductive exn : Set :=
| ValueError
| OverflowError.

Inductive result (A : Type) : Type :=
| Ok (a : A)
| Raise (e : exn).

Arguments Ok {A} a.
Arguments Raise {A} e.

Definition bind {A B : Type} (m : result A) (f : A -> result B) : result B :=
  match m with
  | Ok a => f a
  | Raise e => Raise e
  end.

Notation "x <- m ;; k" := (bind m (fun x => k))
  (at level 61, m at next level, right associativity).

(* ================================================================== *)
(** * 3. Process lists *)

Module Lists.

Section Lists.

Context {A : Type}.
Variable A_eq_dec : forall x y : A, {x = y} + {x <> y}.

(** [[element for sublist in nested_list for element in sublist]] *)
Fixpoint list_flatten (nested_list : list (list A)) : list A :=
  match nested_list with
  | [] => []
  | sublist :: rest => sublist ++ list_flatten rest
  end.

(** The set [seen]: only membership is ever asked of it. *)
Definition set_empty : list A := [].

Definition set_contains (x : A) (seen : list A) : bool :=
  if in_dec A_eq_dec x seen then true else false.

Definition set_add (x : A) (seen : list A) : list A :=
  if in_dec A_eq_dec x seen then seen else x :: seen.

(** [[x for x in l if not (x in seen or seen_add(x))]], threading [seen]:
    an element already seen is dropped; otherwise [seen_add(x)] records it
    and answers [None], so the element is kept. *)
Fixpoint remove_duplicates_from (seen : list A) (l : list A) : list A :=
  match l with
  | [] => []
  | x :: l' =>
      if set_contains x seen
      then remove_duplicates_from seen l'
      else x :: remove_duplicates_from (set_add x seen) l'
  end.

Definition list_remove_duplicates (l : list A) : list A :=
  remove_duplicates_from set_empty l.

(** The index of the first occurrence of [x] in [l] ([l.index(x)]), or
    [length l] when there is none. *)
Fixpoint first_index (x : A) (l : list A) : nat :=
  match l with
  | [] => 0
  | y :: l' => if A_eq_dec x y then 0 else S (first_index x l')
  end.

(** [len(range(start, stop, step))] for [step <> 0]. *)
Definition range_len (start stop step : Z) : Z :=
  if (0 <? step)%Z then
    if (start <? stop)%Z then ((stop - start - 1) / step + 1)%Z else 0%Z
  else
    if (stop <? start)%Z then ((start - stop - 1) / (- step) + 1)%Z else 0%Z.

(** [range(start, stop, step)], as the list of its values. *)
Definition range (start stop step : Z) : result (list Z) :=
  if (step =? 0)%Z then Raise ValueError
  else Ok (map (fun i => (start + Z.of_nat i * step)%Z)
             (seq 0 (Z.to_nat (range_len start stop step)))).

(** A slice bound, as [lst[i:j]] reads it: a negative bound counts from
    the end, and every bound is cut to [0..len]. *)
Definition slice_bound (len i : Z) : Z :=
  if (i <? 0)%Z then Z.max 0 (i + len) else Z.min i len.

(** [lst[i:j]] *)
Definition slice (lst : list A) (i j : Z) : list A :=
  let len := Z.of_nat (List.length lst) in
  let a := slice_bound len i in
  let b := slice_bound len j in
  firstn (Z.to_nat (b - a)) (skipn (Z.to_nat a) lst).

(** [list_batch], as the list of the chunks the generator yields. *)
Definition list_batch (lst : list A) (n : Z) : result (list (list A)) :=
  idx <- range 0 (Z.of_nat (List.length lst)) n ;;
  Ok (map (fun i => slice lst i (i + n)%Z) idx).

End Lists.

End Lists.

(* ================================================================== *)
(** * 4. Miscellaneous: [date_add_year] over [datetime.date] *)

Module Dates.

Open Scope Z_scope.

Definition MINYEAR : Z := 1.
Definition MAXYEAR : Z := 9999.
Definition MAXORDINAL : Z := 3652059.   (* date(9999, 12, 31).toordinal() *)

Record date : Set := mkdate { year : Z; month : Z; day : Z }.

Definition is_leap (y : Z) : bool :=
  (y mod 4 =? 0) && (negb (y mod 100 =? 0) || (y mod 400 =? 0)).

(** [_DAYS_IN_MONTH] *)
Definition DAYS_IN_MONTH (m : Z) : Z :=
  nth (Z.to_nat m) [-1; 31; 28; 31; 30; 31; 30; 31; 31; 30; 31; 30; 31] (-1).

(** [_DAYS_BEFORE_MONTH] *)
Definition DAYS_BEFORE_MONTH (m : Z) : Z :=
  nth (Z.to_nat m)
    [-1; 0; 31; 59; 90; 120; 151; 181; 212; 243; 273; 304; 334] (-1).

Definition days_in_month (y m : Z) : Z :=
  if (m =? 2) && is_leap y then 29 else DAYS_IN_MONTH m.

Definition days_before_year (y : Z) : Z :=
  let y := y - 1 in y * 365 + y / 4 - y / 100 + y / 400.

Definition days_before_month (y m : Z) : Z :=
  DAYS_BEFORE_MONTH m + (if (2 <? m) && is_leap y then 1 else 0).

Definition ymd2ord (y m d : Z) : Z :=
  days_before_year y + days_before_month y m + d.

Definition DI400Y : Z := 146097.
Definition DI100Y : Z := 36524.
Definition DI4Y : Z := 1461.

(** [_ord2ymd]: ordinal to (year, month, day), with 01-Jan-0001 as day 1. *)
Definition ord2ymd (n : Z) : Z * Z * Z :=
  let n := n - 1 in
  let n400 := n / DI400Y in
  let n := n mod DI400Y in
  let y := n400 * 400 + 1 in
  let n100 := n / DI100Y in
  let n := n mod DI100Y in
  let n4 := n / DI4Y in
  let n := n mod DI4Y in
  let n1 := n / 365 in
  let n := n mod 365 in
  let y := y + n100 * 100 + n4 * 4 + n1 in
  if (n1 =? 4) || (n100 =? 4) then (y - 1, 12, 31)
  else
    let leapyear := (n1 =? 3) && (negb (n4 =? 24) || (n100 =? 3)) in
    let m := Z.shiftr (n + 50) 5 in
    let preceding :=
      DAYS_BEFORE_MONTH m + (if (2 <? m) && leapyear then 1 else 0) in
    if n <? preceding then
      let m := m - 1 in
      let preceding :=
        preceding
        - (DAYS_IN_MONTH m + (if (m =? 2) && leapyear then 1 else 0)) in
      (y, m, n - preceding + 1)
    else (y, m, n - preceding + 1).

(** The field check of the constructor: the values a [date] can hold. *)
Definition check_date_fields (y m d : Z) : bool :=
  (MINYEAR <=? y) && (y <=? MAXYEAR)
  && (1 <=? m) && (m <=? 12)
  && (1 <=? d) && (d <=? days_in_month y m).

(** [date(y, m, d)] *)
Definition new_date (y m d : Z) : result date :=
  if check_date_fields y m d then Ok (mkdate y m d) else Raise ValueError.

Definition valid (d : date) : Prop :=
  check_date_fields (year d) (month d) (day d) = true.

(** [d.replace(year=y)] *)
Definition replace_year (d : date) (y : Z) : result date :=
  new_date y (month d) (day d).

Definition toordinal (d : date) : Z := ymd2ord (year d) (month d) (day d).

Definition fromordinal (n : Z) : date :=
  let '(y, m, d) := ord2ymd n in mkdate y m d.

(** [a - b] for two dates: a [timedelta], here its number of days. *)
Definition date_sub (a b : date) : Z := toordinal a - toordinal b.

(** [d + timedelta(days)] *)
Definition date_add (d : date) (days : Z) : result date :=
  let o := toordinal d + days in
  if (0 <? o) && (o <=? MAXORDINAL) then Ok (fromordinal o)
  else Raise OverflowError.

(** [date_add_year]: [try: d.replace(...)], and on [ValueError] the
    arithmetic of the [except] branch, whose own exceptions propagate. *)
Definition date_add_year (d : date) (years : Z) : result date :=
  match replace_year d (year d + years) with
  | Ok d' => Ok d'
  | Raise ValueError =>
      a <- new_date (year d + years) 1 1 ;;
      b <- new_date (year d) 1 1 ;;
      date_add d (date_sub a b)
  | Raise e => Raise e
  end.

(** The calendar day ([m], [dd]) exists in year [y]: the Gregorian
    calendar has such a day, whatever the range of [date]. *)
Definition day_exists (y m dd : Z) : bool :=
  (1 <=? m) && (m <=? 12) && (1 <=? dd) && (dd <=? days_in_month y m).

(** The years a [date] can hold. *)
Definition in_years (y : Z) : Prop := MINYEAR <= y <= MAXYEAR.

End Dates.

(* ================================================================== *)
(** * 4. Miscellaneous: [sleep_countdown] *)

Module Countdown.

Open Scope Z_scope.

(** What a call leaves behind: the seconds slept so far and the text
    written to [sys.stdout]. *)
Record world : Set := mkworld { slept : Z; stdout : string }.

Definition start : world := mkworld 0 "".

(** What the name [sleep] stands for when the body looks it up.  The
    module binds [strftime] from [time] and nothing else, so as the file
    is written the name is unbound; a caller may bind it to [time.sleep]
    in the module's namespace. *)
Inductive sleep_name : Set :=
| Unbound
| TimeSleep.

(** What a call can raise: an exception of the built-in operations, or
    [NameError] for a name that is not bound. *)
Inductive raised : Set :=
| Builtin (e : exn)
| NameError.

(** [time.sleep(secs)] for an integer [secs]: a negative length is
    refused. *)
Definition time_sleep (secs : Z) (w : world) : result world :=
  if secs <? 0 then Raise ValueError
  else Ok (mkworld (slept w + secs) (stdout w)).

(** [str(i)] for an integer. *)
Definition str (i : Z) : string := NilZero.string_of_int (Z.to_int i).

(** [sys.stdout.write(s)] *)
Definition write (s : string) (w : world) : world :=
  mkworld (slept w) (stdout w ++ s).

(** The body of the loop, for the values [i] of the range in turn.  The
    text written before an exception stays written. *)
Fixpoint countdown_loop (sleep : sleep_name) (print_step : Z)
    (idx : list Z) (w : world) : world * option raised :=
  match idx with
  | [] => (w, None)
  | i :: idx' =>
      match sleep with
      | Unbound => (w, Some NameError)
      | TimeSleep =>
          match time_sleep print_step w with
          | Raise e => (w, Some (Builtin e))
          | Ok w' =>
              countdown_loop sleep print_step idx'
                (write (str (i - print_step) ++ " ") w')
          end
      end
  end.

(** [sleep_countdown(duration, print_step)]: the world after the call,
    and the exception that ended it, if any. *)
Definition sleep_countdown (sleep : sleep_name) (duration print_step : Z)
    (w : world) : world * option raised :=
  match Lists.range duration 0 (- print_step) with
  | Raise e => (w, Some (Builtin e))
  | Ok idx => countdown_loop sleep print_step idx w
  end.

End Countdown.

(* ================================================================== *)
(** * Properties of strings *)

Lemma length_append (a b : string) :
  String.length (a ++ b) = String.length a + String.length b.
Proof.
  induction a as [|c a IH]; simpl; [reflexivity|].
  now rewrite IH.
Qed.

Lemma append_nil_r (a : string) : a ++ "" = a.
Proof.
  induction a as [|c a IH]; simpl; [reflexivity|].
  now rewrite IH.
Qed.

Lemma append_assoc (a b c : string) : (a ++ b) ++ c = a ++ (b ++ c).
Proof.
  induction a as [|x a IH]; simpl; [reflexivity|].
  now rewrite IH.
Qed.

Lemma length_zero_nil (a : string) : String.length a = 0 -> a = "".
Proof. destruct a; [reflexivity | discriminate]. Qed.

Lemma last_append p a b : Str.last p (a ++ b) = Str.last (Str.last p a) b.
Proof.
  revert p; induction a as [|c a IH]; intros p; simpl; [reflexivity|].
  apply IH.
Qed.

(* ================================================================== *)
(** * The matcher against the denotation of patterns *)

Import Re.

Section MatcherFacts.

Context {R : Type}.

Implicit Types (k : @cont R) (p : option ascii) (s m t : string).

Lemma orelse_some (a b : option R) x :
  orelse a b = Some x -> a = Some x \/ (a = None /\ b = Some x).
Proof. destruct a; simpl; intros H; [left | right]; auto. Qed.

Lemma orelse_not_none_l (a b : option R) : a <> None -> orelse a b <> None.
Proof. destruct a; simpl; congruence. Qed.

Lemma orelse_not_none_r (a b : option R) : b <> None -> orelse a b <> None.
Proof. destruct a; simpl; congruence. Qed.

Lemma repeat_greedy_sound r (IH : sound_at R r) n :
  forall p s k x,
    repeat_greedy (rmatch r) n p s k = Some x ->
    exists m t,
      s = m ++ t /\ Matches (Star r) p m t /\ k (Str.last p m) t = Some x.
Proof.
  induction n as [|n IHn]; simpl; intros p s k x H.
  - exists "", s. repeat split; [constructor | assumption].
  - apply orelse_some in H. destruct H as [H | [_ H]].
    + apply IH in H. destruct H as (m1 & t1 & -> & Hm1 & H).
      destruct (String.length t1 <? String.length (m1 ++ t1))%nat;
        [|discriminate].
      apply IHn in H. destruct H as (m2 & t & -> & Hm2 & H).
      exists (m1 ++ m2), t. rewrite append_assoc, last_append.
      repeat split; [|assumption]. now constructor.
    + exists "", s. repeat split; [constructor | assumption].
Qed.

Lemma rmatch_sound r : sound_at R r.
Proof.
  induction r as [ | | c | cl | | r1 IH1 r2 IH2 | r1 IH1 r2 IH2
                 | r1 IH1 | r1 IH1 | r1 IH1 ];
    intros p s k x H; simpl in H.
  - discriminate.
  - exists "", s. repeat split; [constructor | assumption].
  - destruct s as [|a s]; [discriminate|].
    destruct (Ascii.eqb_spec a c) as [->|]; [|discriminate].
    exists (String c ""), s. repeat split; [constructor | assumption].
  - destruct s as [|a s]; [discriminate|].
    destruct (in_class cl a) eqn:E; [|discriminate].
    exists (String a ""), s. repeat split; [now constructor | assumption].
  - destruct (at_boundary p s) eqn:E; [|discriminate].
    exists "", s. repeat split; [now constructor | assumption].
  - apply IH1 in H. destruct H as (m1 & t1 & -> & Hm1 & H).
    apply IH2 in H. destruct H as (m2 & t & -> & Hm2 & H).
    exists (m1 ++ m2), t. rewrite append_assoc, last_append.
    repeat split; [|assumption]. now constructor.
  - apply orelse_some in H. destruct H as [H | [_ H]].
    + apply IH1 in H. destruct H as (m & t & -> & Hm & H).
      exists m, t. repeat split; [now apply MAltL | assumption].
    + apply IH2 in H. destruct H as (m & t & -> & Hm & H).
      exists m, t. repeat split; [now apply MAltR | assumption].
  - now apply (repeat_greedy_sound r1 IH1) in H.
  - apply IH1 in H. destruct H as (m1 & t1 & -> & Hm1 & H).
    apply (repeat_greedy_sound r1 IH1) in H.
    destruct H as (m2 & t & -> & Hm2 & H).
    exists (m1 ++ m2), t. rewrite append_assoc, last_append.
    repeat split; [|assumption]. now constructor.
  - apply orelse_some in H. destruct H as [H | [_ H]].
    + apply IH1 in H. destruct H as (m & t & -> & Hm & H).
      exists m, t. repeat split; [now apply MOptSome | assumption].
    + exists "", s. repeat split; [apply MOptNone | assumption].
Qed.

Lemma repeat_greedy_complete r (IH : complete_at R r) :
  forall p m t,
    Matches (Star r) p m t ->
    forall n k,
      String.length (m ++ t) <= n ->
      k (Str.last p m) t <> None ->
      repeat_greedy (rmatch r) n p (m ++ t) k <> None.
Proof.
  intros p m t H. remember (Star r) as r0 eqn:E.
  induction H as [ | | | | | | | r' p t | r' p m1 m2 t H1 _ H2 IH2
                 | | | ]; try discriminate E;
    injection E as ->; intros n k Hn Hk.
  - destruct n; simpl; [assumption | now apply orelse_not_none_r].
  - specialize (IH2 eq_refl).
    destruct m1 as [|c m1]; [now apply IH2 |].
    destruct n as [|n]; [simpl in Hn; lia |].
    cbn [repeat_greedy]. apply orelse_not_none_l.
    rewrite append_assoc. apply IH; [assumption|].
    rewrite <- append_assoc.
    replace (String.length (m2 ++ t) <? String.length ((String c m1 ++ m2) ++ t))%nat
      with true.
    + rewrite last_append in Hk. apply IH2; [|assumption].
      rewrite !length_append in *. simpl in Hn. lia.
    + symmetry. apply Nat.ltb_lt. rewrite !length_append. simpl. lia.
Qed.

Lemma rmatch_complete r : complete_at R r.
Proof.
  induction r as [ | | c | cl | | r1 IH1 r2 IH2 | r1 IH1 r2 IH2
                 | r1 IH1 | r1 IH1 | r1 IH1 ];
    intros p m t k H Hk; inversion H; subst; simpl.
  - assumption.
  - now rewrite Ascii.eqb_refl.
  - match goal with E : in_class _ _ = true |- _ => now rewrite E end.
  - match goal with E : at_boundary _ _ = true |- _ => now rewrite E end.
  - rewrite append_assoc. apply IH1; [assumption|].
    apply IH2; [assumption|]. now rewrite <- last_append.
  - apply orelse_not_none_l. now apply IH1.
  - destruct (rmatch r1 p (m ++ t) k) eqn:E; simpl; [congruence|].
    now apply IH2.
  - destruct (String.length t); simpl;
      [assumption | now apply orelse_not_none_r].
  - apply (repeat_greedy_complete r1 IH1); [assumption | lia | assumption].
  - rewrite append_assoc. apply IH1; [assumption|].
    rewrite last_append in Hk.
    apply (repeat_greedy_complete r1 IH1); [assumption | lia | assumption].
  - apply orelse_not_none_l. now apply IH1.
  - now apply orelse_not_none_r.
Qed.

(** The matcher consults its continuation only at positions further on
    in the subject. *)
Lemma repeat_greedy_ext r
    (IH : forall p s k1 k2,
        (forall p' s', String.length s' <= String.length s ->
                       k1 p' s' = k2 p' s') ->
        rmatch r p s k1 = rmatch r p s k2) n :
  forall p s k1 k2,
    (forall p' s', String.length s' <= String.length s ->
                   k1 p' s' = k2 p' s') ->
    repeat_greedy (rmatch r) n p s k1 = repeat_greedy (rmatch r) n p s k2.
Proof.
  induction n as [|n IHn]; intros p s k1 k2 H; simpl.
  - now apply H.
  - rewrite (H p s) by lia. f_equal. apply IH. intros p' s' Hs'.
    destruct (Nat.ltb_spec (String.length s') (String.length s));
      [|reflexivity].
    apply IHn. intros p'' s'' Hs''. apply H. lia.
Qed.

Lemma rmatch_ext r :
  forall p s k1 k2,
    (forall p' s', String.length s' <= String.length s ->
                   k1 p' s' = k2 p' s') ->
    rmatch r p s k1 = rmatch r p s k2.
Proof.
  induction r as [ | | c | cl | | r1 IH1 r2 IH2 | r1 IH1 r2 IH2
                 | r1 IH1 | r1 IH1 | r1 IH1 ];
    intros p s k1 k2 H; simpl.
  - reflexivity.
  - now apply H.
  - destruct s as [|a s]; [reflexivity|].
    destruct (Ascii.eqb a c); [|reflexivity]. apply H. simpl. lia.
  - destruct s as [|a s]; [reflexivity|].
    destruct (in_class cl a); [|reflexivity]. apply H. simpl. lia.
  - destruct (at_boundary p s); [|reflexivity]. now apply H.
  - apply IH1. intros p' s' Hs'. apply IH2. intros p'' s'' Hs''.
    apply H. lia.
  - now rewrite (IH1 p s k1 k2), (IH2 p s k1 k2).
  - now apply (repeat_greedy_ext r1 IH1).
  - apply IH1. intros p' s' Hs'. apply (repeat_greedy_ext r1 IH1).
    intros p'' s'' Hs''. apply H. lia.
  - now rewrite (IH1 p s k1 k2), (H p s).
Qed.

(** The rounds of a greedy repetition are bounded by the text that is
    left: any larger budget gives the same answer. *)
Lemma repeat_greedy_budget r n :
  forall n' p s k,
    String.length s <= n -> String.length s <= n' ->
    repeat_greedy (rmatch r) n p s k = repeat_greedy (rmatch r) n' p s k.
Proof.
  induction n as [|n IHn]; intros n' p s k Hn Hn'.
  - destruct n' as [|n']; [reflexivity|]. simpl.
    replace (rmatch r p s _) with (@None R); [reflexivity|].
    symmetry.
    destruct (rmatch r p s _) eqn:E; [|reflexivity].
    apply rmatch_sound in E. destruct E as (m & t & -> & _ & E).
    destruct (Nat.ltb_spec (String.length t) (String.length (m ++ t)));
      [lia | discriminate].
  - destruct n' as [|n'].
    + simpl.
      replace (rmatch r p s _) with (@None R); [reflexivity|].
      symmetry.
      destruct (rmatch r p s _) eqn:E; [|reflexivity].
      apply rmatch_sound in E. destruct E as (m & t & -> & _ & E).
      destruct (Nat.ltb_spec (String.length t) (String.length (m ++ t)));
        [lia | discriminate].
    + simpl. f_equal. apply rmatch_ext. intros p' s' Hs'.
      destruct (Nat.ltb_spec (String.length s') (String.length s));
        [|reflexivity].
      apply IHn; lia.
Qed.

End MatcherFacts.

(** ** One attempt, a search, a full match *)

Lemma match_here_inv r adv p s p' s' :
  match_here r adv p s = Some (p', s') ->
  exists m,
    s = m ++ s' /\ Matches r p m s' /\ p' = Str.last p m
    /\ (adv = true -> m <> "").
Proof.
  unfold match_here. intros H. apply rmatch_sound in H.
  destruct H as (m & t & -> & Hm & H).
  destruct (adv && (String.length t =? String.length (m ++ t))%nat) eqn:E;
    [discriminate|].
  injection H as <- <-. exists m. repeat split; try assumption.
  intros -> ->. simpl in E. now rewrite Nat.eqb_refl in E.
Qed.

Lemma match_here_none r p s :
  match_here r false p s = None <->
  (forall m t, s = m ++ t -> ~ Matches r p m t).
Proof.
  split.
  - intros H m t -> Hm. revert H. apply rmatch_complete; [assumption|].
    simpl. discriminate.
  - intros H. destruct (match_here r false p s) as [[p' s']|] eqn:E;
      [|reflexivity].
    apply match_here_inv in E. destruct E as (m & -> & Hm & _).
    now destruct (H m s').
Qed.

(** [re.fullmatch] succeeds exactly on the texts the pattern denotes. *)
Lemma fullmatch_spec r s : fullmatch r s = true <-> Matches r None s "".
Proof.
  unfold fullmatch. split.
  - destruct (rmatch r None s _) as [[]|] eqn:E; [intros _ | discriminate].
    apply rmatch_sound in E. destruct E as (m & t & -> & Hm & E).
    destruct t; [|discriminate]. now rewrite append_nil_r.
  - intros H.
    pose proof (rmatch_complete r None s ""
      (fun _ s' => match s' with "" => Some tt | _ => None end) H) as C.
    rewrite append_nil_r in C.
    destruct (rmatch r None s _); [reflexivity|].
    exfalso. apply C; [discriminate | reflexivity].
Qed.

(** [re.search] finds nothing exactly when no part of the text is a
    match of the pattern. *)
Lemma search_from_false r p s :
  search_from r p s = false <->
  (forall a m t, s = a ++ m ++ t -> ~ Matches r (Str.last p a) m t).
Proof.
  revert p. induction s as [|c s IH]; intros p; simpl.
  - destruct (match_here r false p "") eqn:E.
    + split; [discriminate|]. intros H. exfalso.
      destruct p0 as [p' s']. apply match_here_inv in E.
      destruct E as (m & E & Hm & _). apply (H "" m s'); assumption.
    + split; [|reflexivity]. intros _ a m t E' Hm.
      destruct a; [|discriminate]. simpl in *.
      apply (proj1 (match_here_none r p "") E m t); assumption.
  - destruct (match_here r false p (String c s)) eqn:E.
    + split; [discriminate|]. intros H. exfalso.
      destruct p0 as [p' s']. apply match_here_inv in E.
      destruct E as (m & E & Hm & _). apply (H "" m s'); assumption.
    + rewrite IH. split.
      * intros H a m t E' Hm. destruct a as [|c' a]; simpl in *.
        -- apply (proj1 (match_here_none r p (String c s)) E m t);
             assumption.
        -- injection E' as -> E'. apply (H a m t); assumption.
      * intros H a m t E' Hm. apply (H (String c a) m t); [|assumption].
        simpl. now rewrite E'.
Qed.

(** ** Lower bound on the length of a match *)

Lemma matches_not_fail r p m t : Matches r p m t -> r <> Fail.
Proof. intros H ->. inversion H. Qed.

Lemma min_len_alt_l r1 r2 : r1 <> Fail -> min_len (Alt r1 r2) <= min_len r1.
Proof.
  intros H. destruct r1; try congruence; destruct r2; cbn [min_len]; lia.
Qed.

Lemma min_len_alt_r r1 r2 : r2 <> Fail -> min_len (Alt r1 r2) <= min_len r2.
Proof.
  intros H. destruct r2; try congruence; destruct r1; cbn [min_len]; lia.
Qed.

Lemma min_len_matches r p m t :
  Matches r p m t -> min_len r <= String.length m.
Proof.
  induction 1; cbn [min_len String.length]; try lia.
  - rewrite length_append. lia.
  - apply matches_not_fail in H.
    pose proof (min_len_alt_l r1 r2 H). cbn [min_len] in *. lia.
  - apply matches_not_fail in H.
    pose proof (min_len_alt_r r1 r2 H). cbn [min_len] in *. lia.
  - rewrite length_append. lia.
Qed.

Lemma match_here_advances r adv p s p' s' :
  0 < min_len r ->
  match_here r adv p s = Some (p', s') ->
  String.length s' < String.length s.
Proof.
  intros Hr H. apply match_here_inv in H.
  destruct H as (m & -> & Hm & _).
  apply min_len_matches in Hm. rewrite length_append. lia.
Qed.

(** ** The substitution loop *)

Lemma sub_loop_enough r repl fuel :
  forall (adv : bool) p s,
    2 * String.length s + (if adv then 0 else 1) < fuel ->
    exists out, sub_loop fuel r repl adv p s = Some out.
Proof.
  induction fuel as [|fuel IH]; intros adv p s Hf; [lia|].
  simpl. destruct (match_here r adv p s) as [[p' s']|] eqn:E.
  - apply match_here_inv in E. destruct E as (m & -> & _ & _ & Hadv).
    destruct (IH (String.length s' =? String.length (m ++ s'))%nat p' s')
      as [out Hout].
    + rewrite length_append in *.
      destruct (Nat.eqb_spec (String.length s')
                  (String.length m + String.length s')) as [E|E].
      * destruct adv; [|lia].
        destruct m; [now destruct Hadv | simpl in E; lia].
      * destruct adv; lia.
    + rewrite Hout. simpl. eauto.
  - destruct s as [|c s]; [eauto|].
    destruct (IH false (Some c) s) as [out Hout].
    + simpl in Hf. destruct adv; lia.
    + rewrite Hout. simpl. eauto.
Qed.

Lemma sub_loop_mono r repl fuel :
  forall fuel' adv p s out,
    sub_loop fuel r repl adv p s = Some out -> fuel <= fuel' ->
    sub_loop fuel' r repl adv p s = Some out.
Proof.
  induction fuel as [|fuel IH]; intros fuel' adv p s out H Hf;
    [discriminate|].
  destruct fuel' as [|fuel']; [lia|]. simpl in *.
  destruct (match_here r adv p s) as [[p' s']|].
  - destruct (sub_loop fuel r repl _ p' s') eqn:E; [|discriminate].
    apply IH with (fuel' := fuel') in E; [|lia]. now rewrite E.
  - destruct s as [|c s]; [assumption|].
    destruct (sub_loop fuel r repl false (Some c) s) eqn:E; [|discriminate].
    apply IH with (fuel' := fuel') in E; [|lia]. now rewrite E.
Qed.

(** [re.sub] always answers: the step budget is never exhausted. *)
Lemma sub_total r repl s : exists out, sub r repl s = Some out.
Proof.
  apply sub_loop_enough. unfold sub_budget. lia.
Qed.

(** Two runs that both have budget enough agree. *)
Lemma sub_loop_budget r repl fuel (adv : bool) p s :
  2 * String.length s + (if adv then 0 else 1) < fuel ->
  sub_loop fuel r repl adv p s
  = sub_loop (2 * String.length s + 2) r repl adv p s.
Proof.
  intros Hf.
  destruct (sub_loop_enough r repl (2 * String.length s + 2) adv p s)
    as [out Hout]; [destruct adv; lia|].
  destruct (sub_loop_enough r repl fuel adv p s Hf) as [out' Hout'].
  rewrite Hout, Hout'.
  apply sub_loop_mono with (fuel' := Nat.max fuel (2 * String.length s + 2))
    in Hout; [|lia].
  apply sub_loop_mono with (fuel' := Nat.max fuel (2 * String.length s + 2))
    in Hout'; [|lia].
  congruence.
Qed.

(** With the empty replacement the result is never longer than the
    subject. *)
Lemma sub_loop_length r fuel :
  forall adv p s out,
    sub_loop fuel r "" adv p s = Some out ->
    String.length out <= String.length s.
Proof.
  induction fuel as [|fuel IH]; intros adv p s out H; [discriminate|].
  simpl in H. destruct (match_here r adv p s) as [[p' s']|] eqn:E.
  - apply match_here_inv in E. destruct E as (m & -> & _).
    destruct (sub_loop fuel r "" _ p' s') as [o|] eqn:E'; [|discriminate].
    injection H as <-. apply IH in E'. rewrite length_append. simpl. lia.
  - destruct s as [|c s]; [injection H as <-; simpl; lia|].
    destruct (sub_loop fuel r "" false (Some c) s) as [o|] eqn:E';
      [|discriminate].
    injection H as <-. apply IH in E'. simpl. lia.
Qed.

(** A subject in which the search finds nothing is copied as it is. *)
Lemma sub_loop_no_match r repl :
  forall s p fuel,
    search_from r p s = false -> String.length s < fuel ->
    sub_loop fuel r repl false p s = Some s.
Proof.
  induction s as [|c s IH]; intros p fuel H Hf;
    (destruct fuel as [|fuel]; [lia|]); simpl in *;
    destruct (match_here r false p _); try discriminate; [reflexivity|].
  rewrite IH; [reflexivity | assumption | lia].
Qed.

(** The leftmost match splits the subject: no attempt succeeds at a
    character of [pre], and the attempt right after [pre] gives the
    match. *)
Lemma first_match_inv r :
  forall s p pre e,
    first_match r p s = Some (pre, e) ->
    exists tail,
      s = pre ++ tail
      /\ match_here r false (Str.last p pre) tail = Some e
      /\ (forall fuel repl,
            sub_loop (String.length pre + fuel) r repl false p s
            = option_map (append pre)
                (sub_loop fuel r repl false (Str.last p pre) tail)).
Proof.
  induction s as [|c s IH]; intros p pre e H; simpl in H.
  - destruct (match_here r false p "") as [e'|] eqn:E; [|discriminate].
    injection H as <- <-. exists "". repeat split; [assumption|].
    intros fuel repl. simpl. now destruct (sub_loop fuel r repl false p "").
  - destruct (match_here r false p (String c s)) as [e'|] eqn:E.
    + injection H as <- <-. exists (String c s).
      repeat split; [assumption|].
      intros fuel repl. simpl.
      now destruct (sub_loop fuel r repl false p (String c s)).
    + destruct (first_match r (Some c) s) as [[pre' e']|] eqn:E';
        [|discriminate].
      injection H as <- <-. apply IH in E'.
      destruct E' as (tail & -> & Hm & Hs).
      exists tail. repeat split; [assumption|].
      intros fuel repl. cbn [String.length Nat.add sub_loop append].
      rewrite E, Hs. simpl.
      now destruct (sub_loop fuel r repl false (Str.last (Some c) pre') tail).
Qed.

(* ================================================================== *)
(** * [regex_strip_legalname] *)

Import Names.

(** Every match of the pattern consumes at least two characters: the
    shortest suffix token is [Co]. *)
Lemma pattern_min_len : min_len pattern = 2.
Proof. reflexivity. Qed.

Lemma pattern_advances adv p s p' s' :
  match_here pattern adv p s = Some (p', s') ->
  String.length s' < String.length s.
Proof. apply match_here_advances. rewrite pattern_min_len. lia. Qed.

(** The pattern looks behind only after it has read a character ([\b]
    follows [Co] and [Inc]), so an attempt does not depend on the text
    before the position where it starts. *)
Lemma pattern_prev_indep adv p s :
  match_here pattern adv p s = match_here pattern adv None s.
Proof. destruct s; reflexivity. Qed.

Lemma strip_loop_prev_indep fuel adv p s :
  sub_loop fuel pattern "" adv p s = sub_loop fuel pattern "" adv None s.
Proof.
  destruct fuel; [reflexivity|]. cbn [sub_loop].
  now rewrite pattern_prev_indep.
Qed.

Lemma strip_legalname_total n : exists n', strip_legalname n = Some n'.
Proof. apply sub_total. Qed.

(** C2. The output of [regex_strip_legalname] has the length of its input,
    and the element at each index is the stripped form of the input
    element at the same index. *)
Theorem regex_strip_legalname_positional (raw_names : list string) :
  exists stripped_names,
    regex_strip_legalname raw_names = Some stripped_names
    /\ List.length stripped_names = List.length raw_names
    /\ forall i n,
         nth_error raw_names i = Some n ->
         exists n',
           strip_legalname n = Some n'
           /\ nth_error stripped_names i = Some n'.
Proof.
  induction raw_names as [|n0 rest IH]; simpl.
  - exists []. repeat split. intros [|i] n; discriminate.
  - destruct (strip_legalname_total n0) as [n0' E0].
    destruct IH as (out & E & Hlen & Hnth).
    rewrite E0, E. simpl. exists (n0' :: out). repeat split.
    + simpl. now rewrite Hlen.
    + intros [|i] n H; simpl in *.
      * injection H as <-. eauto.
      * now apply Hnth.
Qed.

(** C4. Each output string is no longer than the input string at the same
    position. *)
Theorem regex_strip_legalname_no_longer (raw_names : list string) :
  exists stripped_names,
    regex_strip_legalname raw_names = Some stripped_names
    /\ Forall2 (fun n n' => String.length n' <= String.length n)
         raw_names stripped_names.
Proof.
  induction raw_names as [|n0 rest IH]; simpl.
  - exists []. split; [reflexivity | constructor].
  - destruct (strip_legalname_total n0) as [n0' E0].
    destruct IH as (out & E & HF).
    rewrite E0, E. simpl. exists (n0' :: out). split; [reflexivity|].
    constructor; [|assumption].
    now apply sub_loop_length in E0.
Qed.

(** C5. The test vectors of the description. *)
Theorem regex_strip_legalname_vectors :
  regex_strip_legalname ["Acme Corp"] = Some ["Acme"]
  /\ regex_strip_legalname ["Acme Corporation"] = Some ["Acme"]
  /\ regex_strip_legalname ["Global Holdings Inc"] = Some ["Global"]
  /\ regex_strip_legalname ["Foo Bar (Class A)"] = Some ["Foo Bar"].
Proof. repeat split; vm_compute; reflexivity. Qed.

(** C6. [regex_strip_legalname] answers on every list of strings: no
    element exhausts the step budget of the substitution, and there is no
    other way for it to end without a result. *)
Theorem regex_strip_legalname_total (raw_names : list string) :
  exists stripped_names,
    regex_strip_legalname raw_names = Some stripped_names.
Proof.
  induction raw_names as [|n0 rest [out E]]; simpl; [now exists []|].
  destruct (strip_legalname_total n0) as [n0' E0].
  rewrite E0, E. simpl. now exists (n0' :: out).
Qed.

(** C7. On ["Acme Group Inc"] a second pass changes nothing: the result
    of the first pass is mapped to itself. *)
Theorem regex_strip_legalname_twice_acme_group_inc :
  exists once,
    regex_strip_legalname ["Acme Group Inc"] = Some once
    /\ regex_strip_legalname once = Some once.
Proof. exists ["Acme"]. split; vm_compute; reflexivity. Qed.

(** ** Names with several suffixes *)

(** ["Acme Inc Foo Ltd"] holds two suffixes; its first match is [" Inc "].
    Removing the first occurrence only would leave ["AcmeFoo Ltd"], but the
    substitution goes on and removes [" Ltd"] as well. *)
Lemma strip_legalname_removes_later_suffix :
  first_match pattern None "Acme Inc Foo Ltd"
    = Some ("Acme", (Some " "%char, "Foo Ltd"))
  /\ has_suffix "Foo Ltd" = true
  /\ strip_first_only "Acme Inc Foo Ltd" = "AcmeFoo Ltd"
  /\ regex_strip_legalname ["Acme Inc Foo Ltd"] = Some ["AcmeFoo"]
  /\ regex_strip_legalname ["Acme Inc Foo Ltd"]
       <> Some [strip_first_only "Acme Inc Foo Ltd"].
Proof. repeat split; vm_compute; [reflexivity .. | discriminate]. Qed.

(** C1, as the code has it.  The substitution removes every match of a
    left-to-right scan: when the leftmost match of the pattern in [n]
    starts after [pre] and ends before [rest], the result is [pre] followed
    by the stripped form of [rest], in which later suffixes are removed in
    the same way. *)
Theorem strip_legalname_resumes_after_match (n pre rest : string)
    (p' : option ascii) :
  first_match pattern None n = Some (pre, (p', rest)) ->
  exists out,
    strip_legalname rest = Some out
    /\ strip_legalname n = Some (pre ++ out).
Proof.
  intros H. apply first_match_inv in H.
  destruct H as (tail & -> & Hm & Hs).
  destruct (strip_legalname_total rest) as [out Hout].
  exists out. split; [assumption|].
  unfold strip_legalname, sub, sub_budget in *.
  replace (2 * String.length (pre ++ tail) + 2)
    with (String.length pre
          + S (String.length pre + 2 * String.length tail + 1))
    by (rewrite length_append; lia).
  rewrite Hs. cbn [sub_loop]. rewrite Hm.
  pose proof (pattern_advances _ _ _ _ _ Hm) as Hlt.
  replace (String.length rest =? String.length tail)%nat with false
    by (symmetry; apply Nat.eqb_neq; lia).
  rewrite strip_loop_prev_indep, sub_loop_budget by lia.
  rewrite Hout. reflexivity.
Qed.

Lemma strip_legalname_resumes_after_match_witness :
  exists out,
    strip_legalname "Foo Ltd" = Some out
    /\ strip_legalname "Acme Inc Foo Ltd" = Some ("Acme" ++ out).
Proof.
  apply (strip_legalname_resumes_after_match
           "Acme Inc Foo Ltd" "Acme" "Foo Ltd" (Some " "%char)).
  vm_compute. reflexivity.
Defined.

(** ** Names that are a suffix token *)

(** *** The shape of the texts small patterns denote *)

Lemma matches_eps_inv p m t : Matches Eps p m t -> m = "".
Proof. now inversion 1. Qed.

Lemma matches_chr_inv c p m t : Matches (Chr c) p m t -> m = String c "".
Proof. now inversion 1. Qed.

Lemma matches_cls_inv k p m t :
  Matches (Cls k) p m t -> exists c, m = String c "" /\ in_class k c = true.
Proof. inversion 1; subst. eauto. Qed.

Lemma matches_bnd_inv p m t :
  Matches Bnd p m t -> m = "" /\ at_boundary p t = true.
Proof. inversion 1; subst. auto. Qed.

Lemma matches_seq_inv r1 r2 p m t :
  Matches (Seq r1 r2) p m t ->
  exists m1 m2,
    m = m1 ++ m2 /\ Matches r1 p m1 (m2 ++ t)
    /\ Matches r2 (Str.last p m1) m2 t.
Proof. inversion 1; subst. eauto. Qed.

Lemma matches_alt_inv r1 r2 p m t :
  Matches (Alt r1 r2) p m t -> Matches r1 p m t \/ Matches r2 p m t.
Proof. inversion 1; subst; auto. Qed.

Lemma matches_opt_inv r p m t :
  Matches (Opt r) p m t -> m = "" \/ Matches r p m t.
Proof. inversion 1; subst; auto. Qed.

Lemma matches_lit_inv w : forall p m t, Matches (lit w) p m t -> m = w.
Proof.
  induction w as [|c w IH]; intros p m t H; simpl in H.
  - now apply matches_eps_inv in H.
  - apply matches_seq_inv in H. destruct H as (m1 & m2 & -> & H1 & H2).
    apply matches_chr_inv in H1. apply IH in H2. now subst.
Qed.

Lemma matches_star_cls_inv k p m t :
  Matches (Star (Cls k)) p m t -> all_in_class k m = true.
Proof.
  intros H. remember (Star (Cls k)) as r eqn:E.
  induction H; try discriminate E; [reflexivity|].
  injection E as ->. apply matches_cls_inv in H.
  destruct H as (c & -> & Hc). simpl. rewrite Hc. now apply IHMatches2.
Qed.

Lemma matches_plus_cls_inv k p m t :
  Matches (Plus (Cls k)) p m t ->
  exists c w,
    m = String c w /\ in_class k c = true /\ all_in_class k w = true.
Proof.
  inversion 1; subst.
  match goal with
  | H1 : Matches (Cls _) _ _ _, H2 : Matches (Star _) _ _ _ |- _ =>
      apply matches_cls_inv in H1; apply matches_star_cls_inv in H2;
      destruct H1 as (c & -> & Hc)
  end.
  simpl. eauto.
Qed.

(** *** A greedy run over a class *)

Lemma repeat_class_run {R : Type} (cl : cclass) (k : @cont R) (w : string) :
  forall p rest n x,
    all_in_class cl w = true ->
    match rest with
    | String c _ => in_class cl c = false
    | EmptyString => True
    end ->
    String.length (w ++ rest) <= n ->
    k (Str.last p w) rest = Some x ->
    repeat_greedy (rmatch (Cls cl)) n p (w ++ rest) k = Some x.
Proof.
  induction w as [|c w IH]; intros p rest n x Hw Hrest Hn Hk; simpl in *.
  - destruct n as [|n]; simpl; [assumption|].
    destruct rest as [|c rest]; simpl; [assumption|].
    now rewrite Hrest.
  - apply andb_true_iff in Hw. destruct Hw as [Hc Hw].
    destruct n as [|n]; [lia|]. simpl. rewrite Hc.
    replace (String.length (w ++ rest) <? S (String.length (w ++ rest)))%nat
      with true by (symmetry; apply Nat.ltb_lt; lia).
    rewrite (IH (Some c) rest n x); auto. lia.
Qed.

Lemma repeat_class_all {R : Type} (cl : cclass) (k : @cont R) (w : string) :
  forall p n x,
    all_in_class cl w = true ->
    String.length w <= n ->
    k (Str.last p w) "" = Some x ->
    repeat_greedy (rmatch (Cls cl)) n p w k = Some x.
Proof.
  intros p n x Hw Hn Hk.
  rewrite <- (append_nil_r w).
  apply repeat_class_run; auto. now rewrite append_nil_r.
Qed.

(** *** Character facts *)

Lemma space_not_word c : is_space c = true -> is_word c = false.
Proof.
  destruct c as [[] [] [] [] [] [] [] []]; vm_compute; congruence.
Qed.

Lemma eqb_word_nonword x c :
  is_word c = true -> is_word x = false -> Ascii.eqb x c = false.
Proof.
  intros Hc Hx. destruct (Ascii.eqb_spec x c) as [->|]; congruence.
Qed.

Lemma if_same {A : Type} (b : bool) (a : A) : (if b then a else a) = a.
Proof. now destruct b. Qed.

(** A match that takes the whole name leaves nothing. *)
Lemma strip_whole n :
  option_map snd (match_here pattern false None n) = Some "" ->
  strip_legalname n = Some "".
Proof.
  intros H. unfold strip_legalname, sub, sub_budget.
  replace (2 * String.length n + 2) with (S (S (2 * String.length n)))
    by lia.
  cbn [sub_loop].
  destruct (match_here pattern false None n) as [[p' s']|]; [|discriminate].
  injection H as ->. rewrite pattern_prev_indep. reflexivity.
Qed.

Ltac lit_case H :=
  apply matches_lit_inv in H; subst; reflexivity.
Ltac seq_inv H m1 m2 H1 H2 :=
  apply matches_seq_inv in H; destruct H as (m1 & m2 & -> & H1 & H2).
Ltac cls_inv H c Hc :=
  apply matches_cls_inv in H; destruct H as (c & -> & Hc).
Ltac fold_class_run cl :=
  match goal with
  | |- context [repeat_greedy ?b ?n ?p ?s ?k] =>
      change (repeat_greedy b n p s k)
        with (repeat_greedy (rmatch (Cls cl)) n p s k)
  end.

(** The first attempt on a suffix token takes the whole of it: no earlier
    alternative stops short, and the trailer takes what [Int'l.] and
    [.Co.] leave. *)
Lemma suffix_token_whole n :
  is_suffix_token n = true ->
  option_map snd (match_here pattern false None n) = Some "".
Proof.
  unfold is_suffix_token, suffix_tokens. cbn [existsb seqs].
  rewrite !orb_true_iff, !fullmatch_spec.
  intros [H|[H|[H|[H|[H|[H|[H|[H|[H|[H|[H|[H|[H|[H|[H|[H|[H|[H|[H|H]]]]]]]]]]]]]]]]]]];
    try discriminate H; try (lit_case H).
  - seq_inv H m1 m2 H1 H2. apply matches_lit_inv in H1.
    apply matches_bnd_inv in H2. destruct H2 as [-> _]. subst. reflexivity.
  - seq_inv H m1 m2 H1 H2. apply matches_lit_inv in H1.
    apply matches_bnd_inv in H2. destruct H2 as [-> _]. subst. reflexivity.
  - seq_inv H m1 w H1 H2. apply matches_lit_inv in H1. subst.
    apply matches_star_cls_inv in H2.
    unfold match_here. cbn. fold_class_run Word.
    rewrite (repeat_class_all Word _ w _ _ (Str.last (Some "p"%char) w, ""));
      [reflexivity | assumption | lia | reflexivity].
  - seq_inv H m1 m2 H1 H. seq_inv H m3 m4 H2 H. seq_inv H m5 m6 H3 H.
    apply matches_lit_inv in H1, H3. apply matches_eps_inv in H.
    cls_inv H2 c Hc. subst. unfold match_here. cbn in *. rewrite Hc.
    reflexivity.
  - seq_inv H m1 m2 H1 H. seq_inv H m3 m4 H2 H. seq_inv H m5 m6 H3 H.
    apply matches_lit_inv in H1, H3. apply matches_eps_inv in H.
    cls_inv H2 c Hc. subst. unfold match_here. cbn in *. rewrite Hc.
    reflexivity.
  - seq_inv H m1 m2 H1 H. seq_inv H m3 m4 H2 H. seq_inv H m5 m6 H3 H.
    apply matches_lit_inv in H2. apply matches_eps_inv in H.
    cls_inv H1 x Hx. cbn in Hx. apply negb_true_iff in Hx.
    assert (Hy : exists y, m5 = String y "" /\ (is_space y = true \/ y = "."%char)).
    { cbn in H3. apply matches_alt_inv in H3. destruct H3 as [H3|H3].
      - cls_inv H3 y Hy. eauto.
      - apply matches_alt_inv in H3. destruct H3 as [H3|H3]; [|inversion H3].
        apply matches_chr_inv in H3. eauto. }
    destruct Hy as (y & -> & Hy). subst.
    assert (Hyw : is_word y = false).
    { destruct Hy as [Hy| ->]; [now apply space_not_word | reflexivity]. }
    unfold match_here. cbn. rewrite Hx, Hyw. cbn. rewrite !if_same. cbn.
    clear H3.
    destruct Hy as [Hy| ->]; [rewrite Hy|];
      destruct (is_space x), (x =? ".")%char, (x =? ",")%char,
        (x =? "&")%char;
      try destruct (y =? ".")%char; reflexivity.
  - seq_inv H m1 m2 H1 H. seq_inv H m3 m4 H2 H. seq_inv H m5 m6 H3 H.
    seq_inv H m7 m8 H4 H. seq_inv H m9 m10 H5 H.
    apply matches_lit_inv in H2. apply matches_eps_inv in H.
    cls_inv H3 c Hc. apply matches_plus_cls_inv in H4.
    destruct H4 as (a & w & -> & Ha & Hw). subst.
    apply matches_opt_inv in H1, H5.
    destruct H1 as [->|H1]; [|apply matches_chr_inv in H1; subst m1];
      (destruct H5 as [->|H5]; [|apply matches_chr_inv in H5; subst m9]);
      unfold match_here; cbn in *; rewrite Hc, Ha; cbn;
      fold_class_run Word.
    all: (erewrite repeat_class_run;
          [ | exact Hw | cbn; trivial | apply Nat.le_refl
            | cbn; reflexivity ]).
    all: reflexivity.
Qed.

(** What the two tests on names mean, in terms of the texts the pattern
    denotes. *)
Lemma has_suffix_false n :
  has_suffix n = false <->
  (forall a m t, n = a ++ m ++ t -> ~ Matches pattern (Str.last None a) m t).
Proof. apply search_from_false. Qed.

Lemma is_suffix_token_true n :
  is_suffix_token n = true <->
  (exists r, In r suffix_tokens /\ Matches r None n "").
Proof.
  unfold is_suffix_token. rewrite existsb_exists.
  split; intros (r & Hin & H); exists r; split; auto;
    now apply fullmatch_spec.
Qed.

Lemma strip_singleton n n' :
  strip_legalname n = Some n' -> regex_strip_legalname [n] = Some [n'].
Proof. intros H. simpl. now rewrite H. Qed.

(** C3. Edge cases, per element: a name in which the pattern occurs
    nowhere is returned unchanged; the empty name gives the empty name;
    a name that is a single suffix token and nothing else gives the empty
    name. *)
Theorem regex_strip_legalname_edge_cases :
  (forall n, has_suffix n = false -> regex_strip_legalname [n] = Some [n])
  /\ regex_strip_legalname [""] = Some [""]
  /\ (forall n,
        is_suffix_token n = true -> regex_strip_legalname [n] = Some [""]).
Proof.
  repeat split.
  - intros n H. apply strip_singleton.
    apply sub_loop_no_match; [assumption | unfold sub_budget; lia].
  - intros n H. apply strip_singleton, strip_whole.
    now apply suffix_token_whole.
Qed.

Lemma regex_strip_legalname_edge_cases_witness :
  regex_strip_legalname ["NoSuffixHere"] = Some ["NoSuffixHere"]
  /\ regex_strip_legalname ["Holdings Inc"] = Some [""].
Proof.
  split.
  - apply (proj1 regex_strip_legalname_edge_cases "NoSuffixHere").
    vm_compute. reflexivity.
  - apply (proj2 (proj2 regex_strip_legalname_edge_cases) "Holdings Inc").
    vm_compute. reflexivity.
Defined.

(* ================================================================== *)
(** * List utilities *)

Import Lists.

Section ListFacts.

Context {A : Type}.
Variable A_eq_dec : forall x y : A, {x = y} + {x <> y}.

Local Open Scope list_scope.

Local Abbreviation contains := (set_contains A_eq_dec).
Local Abbreviation add := (set_add A_eq_dec).
Local Abbreviation dedup_from := (remove_duplicates_from A_eq_dec).

(** ** [list_remove_duplicates] *)

Lemma set_contains_spec x (seen : list A) :
  contains x seen = true <-> In x seen.
Proof.
  unfold set_contains. destruct (in_dec A_eq_dec x seen); split; intros;
    (reflexivity || assumption || discriminate || contradiction).
Qed.

Lemma set_contains_false x (seen : list A) :
  contains x seen = false <-> ~ In x seen.
Proof.
  rewrite <- set_contains_spec. destruct (contains x seen); split;
    intros; congruence.
Qed.

Lemma set_add_spec x y (seen : list A) :
  In y (add x seen) <-> y = x \/ In y seen.
Proof.
  unfold set_add. destruct (in_dec A_eq_dec x seen); simpl.
  - split; [auto | intros [->|]; assumption].
  - split; intros [H|H]; auto.
Qed.

(** What is kept is what the list holds and [seen] does not. *)
Lemma in_remove_duplicates_from (l : list A) :
  forall seen x, In x (dedup_from seen l) <-> In x l /\ ~ In x seen.
Proof.
  induction l as [|a l IH]; intros seen x; simpl; [tauto|].
  destruct (contains a seen) eqn:E.
  - apply set_contains_spec in E. rewrite IH.
    split; [tauto|]. intros [[->|H] Hn]; [contradiction | tauto].
  - apply set_contains_false in E. simpl. rewrite IH, set_add_spec.
    destruct (A_eq_dec x a) as [->|Hne]; [tauto|].
    split.
    + intros [->|[H Hn]]; [contradiction | tauto].
    + intros [[->|H] Hn]; [contradiction|]. right. split; [assumption|].
      intros [H'|H']; contradiction.
Qed.

Lemma nodup_remove_duplicates_from (l : list A) :
  forall seen, NoDup (dedup_from seen l).
Proof.
  induction l as [|a l IH]; intros seen; simpl; [constructor|].
  destruct (contains a seen); [apply IH|].
  constructor; [|apply IH].
  rewrite in_remove_duplicates_from, set_add_spec. tauto.
Qed.

Lemma first_index_cons_ne x a (l : list A) :
  x <> a -> first_index A_eq_dec x (a :: l) = S (first_index A_eq_dec x l).
Proof. intros H. simpl. now destruct (A_eq_dec x a). Qed.

Lemma first_index_cons_eq a (l : list A) :
  first_index A_eq_dec a (a :: l) = 0.
Proof. simpl. now destruct (A_eq_dec a a). Qed.

(** The elements kept stand in the order of their first occurrences. *)
Lemma remove_duplicates_from_order (l : list A) :
  forall seen i j x y,
    nth_error (dedup_from seen l) i = Some x ->
    nth_error (dedup_from seen l) j = Some y ->
    i < j ->
    first_index A_eq_dec x l < first_index A_eq_dec y l.
Proof.
  induction l as [|a l IH]; intros seen i j x y Hi Hj Hij; simpl in Hi, Hj.
  - destruct i; discriminate.
  - destruct (contains a seen) eqn:E.
    + apply set_contains_spec in E.
      assert (Hx : x <> a).
      { intros ->. apply nth_error_In, in_remove_duplicates_from in Hi.
        tauto. }
      assert (Hy : y <> a).
      { intros ->. apply nth_error_In, in_remove_duplicates_from in Hj.
        tauto. }
      rewrite !first_index_cons_ne by assumption.
      apply -> Nat.succ_lt_mono. eapply IH; eassumption.
    + destruct j as [|j]; [lia|]. simpl in Hj.
      assert (Hy : y <> a).
      { intros ->. apply nth_error_In, in_remove_duplicates_from in Hj.
        rewrite set_add_spec in Hj. tauto. }
      rewrite (first_index_cons_ne y) by assumption.
      destruct i as [|i]; simpl in Hi.
      * injection Hi as <-. rewrite first_index_cons_eq. lia.
      * assert (Hx : x <> a).
        { intros ->. apply nth_error_In, in_remove_duplicates_from in Hi.
          rewrite set_add_spec in Hi. tauto. }
        rewrite first_index_cons_ne by assumption.
        apply -> Nat.succ_lt_mono. eapply IH; [eassumption.. | lia].
Qed.

(** C9. [list_remove_duplicates l] holds each element of [l] once and no
    other element, and its elements stand in the order of their first
    occurrences in [l]. *)
Theorem list_remove_duplicates_first_occurrences (l : list A) :
  let out := list_remove_duplicates A_eq_dec l in
  NoDup out
  /\ (forall x, In x out <-> In x l)
  /\ (forall i j x y,
        nth_error out i = Some x -> nth_error out j = Some y -> i < j ->
        first_index A_eq_dec x l < first_index A_eq_dec y l).
Proof.
  unfold list_remove_duplicates, set_empty. repeat split.
  - apply nodup_remove_duplicates_from.
  - intros H. now apply in_remove_duplicates_from in H.
  - intros H. apply in_remove_duplicates_from. simpl. tauto.
  - intros i j x y. apply remove_duplicates_from_order.
Qed.

End ListFacts.

Section BatchFacts.

Context {A : Type}.

Local Open Scope list_scope.

Implicit Types (lst : list A) (chunks : list (list A)).

(** ** [list_flatten] and [list_batch] *)

Lemma list_flatten_app chunks chunks' :
  list_flatten (chunks ++ chunks')
  = list_flatten chunks ++ list_flatten chunks'.
Proof.
  induction chunks as [|c chunks IH]; simpl; [reflexivity|].
  now rewrite IH, app_assoc.
Qed.

Lemma firstn_add lst (a b : nat) :
  firstn a lst ++ firstn b (skipn a lst) = firstn (a + b) lst.
Proof.
  revert lst. induction a as [|a IH]; intros [|x lst]; simpl;
    try reflexivity.
  - now rewrite firstn_nil.
  - now rewrite IH.
Qed.

(** A slice that starts inside the list: [n] elements from [i] on, or as
    many as are left. *)
Lemma slice_chunk lst (i n : Z) :
  (0 <= i <= Z.of_nat (List.length lst))%Z -> (0 < n)%Z ->
  slice lst i (i + n) = firstn (Z.to_nat n) (skipn (Z.to_nat i) lst).
Proof.
  intros Hi Hn. unfold slice, slice_bound.
  destruct (Z.ltb_spec i 0); [lia|].
  destruct (Z.ltb_spec (i + n) 0); [lia|].
  rewrite (Z.min_l i) by lia.
  destruct (Z.le_ge_cases (i + n) (Z.of_nat (List.length lst))) as [H1|H1].
  - rewrite Z.min_l by lia. f_equal. lia.
  - rewrite Z.min_r by lia.
    rewrite !firstn_all2; try reflexivity; rewrite length_skipn; lia.
Qed.

(** The chunks at the first [k] offsets, glued together, are the first
    [k * n] elements. *)
Lemma list_flatten_chunks lst (n : nat) (k : nat) :
  list_flatten (map (fun j => firstn n (skipn (j * n) lst)) (seq 0 k))
  = firstn (k * n) lst.
Proof.
  induction k as [|k IH]; [reflexivity|].
  rewrite seq_S, map_app, list_flatten_app, IH. simpl.
  rewrite app_nil_r, firstn_add. f_equal. lia.
Qed.

(** The number of chunks: the offsets [0, n, 2n, ...] below [len]. *)
Lemma range_len_bounds (len n : Z) :
  (0 <= len)%Z -> (0 < n)%Z ->
  let k := range_len 0 len n in
  (0 <= k /\ (k - 1) * n < len \/ (k = 0 /\ len = 0))%Z /\ (len <= k * n)%Z.
Proof.
  intros Hlen Hn. unfold range_len.
  destruct (Z.ltb_spec 0 n); [|lia].
  destruct (Z.ltb_spec 0 len).
  - rewrite Z.sub_0_r.
    pose proof (Z.div_pos (len - 1) n ltac:(lia) Hn).
    pose proof (Z.mul_div_le (len - 1) n Hn).
    pose proof (Z.mul_succ_div_gt (len - 1) n Hn).
    split; [left|]; nia.
  - split; [right|]; lia.
Qed.

(** C8. For a batch size [n > 0] the chunks of [list_batch lst n], put
    together by [list_flatten], give [lst] back, and every chunk but the
    last has exactly [n] elements. *)
Theorem list_batch_flatten_roundtrip lst (n : Z) :
  (0 < n)%Z ->
  exists chunks,
    list_batch lst n = Ok chunks
    /\ list_flatten chunks = lst
    /\ forall i c,
         nth_error chunks i = Some c -> S i < List.length chunks ->
         Z.of_nat (List.length c) = n.
Proof.
  intros Hn. unfold list_batch, range.
  destruct (Z.eqb_spec n 0) as [|_]; [lia|]. cbn [bind].
  set (len := Z.of_nat (List.length lst)).
  destruct (range_len_bounds len n ltac:(lia) Hn) as [Hk Hlen].
  set (k := range_len 0 len n) in *. cbv zeta in Hk, Hlen.
  eexists. split; [reflexivity|].
  rewrite map_map.
  assert (Hchunk : forall j, j < Z.to_nat k ->
            slice lst (Z.of_nat j * n) (Z.of_nat j * n + n)
            = firstn (Z.to_nat n) (skipn (j * Z.to_nat n) lst)).
  { intros j Hj. rewrite slice_chunk by (subst len; nia).
    do 2 f_equal. nia. }
  split.
  - rewrite (map_ext_in _ (fun j => firstn (Z.to_nat n)
                                      (skipn (j * Z.to_nat n) lst))).
    + rewrite list_flatten_chunks. apply firstn_all2. subst len. nia.
    + intros j Hj. apply in_seq in Hj. rewrite Z.add_0_l.
      apply Hchunk. lia.
  - intros i c Hi Hlt. rewrite length_map, length_seq in Hlt.
    rewrite nth_error_map, nth_error_seq in Hi.
    destruct (Nat.ltb_spec i (Z.to_nat k)); [|lia].
    simpl in Hi. injection Hi as <-.
    rewrite ?Z.add_0_l, Hchunk by lia.
    rewrite length_firstn, length_skipn. subst len. nia.
Qed.

End BatchFacts.

Lemma list_batch_flatten_roundtrip_witness :
  exists chunks,
    list_batch [1; 2; 3; 4; 5; 6; 7]%list 3 = Ok chunks
    /\ list_flatten chunks = [1; 2; 3; 4; 5; 6; 7]%list
    /\ forall i c,
         nth_error chunks i = Some c -> S i < List.length chunks ->
         Z.of_nat (List.length c) = 3%Z.
Proof.
  apply (list_batch_flatten_roundtrip [1; 2; 3; 4; 5; 6; 7] 3).
  reflexivity.
Defined.

(* ================================================================== *)
(** * [date_add_year] *)

Import Dates.

Section DateFacts.

Local Open Scope Z_scope.

Ltac divmod := Z.div_mod_to_equations; lia.

(** Day 60 of a year that is not a leap year is March 1. *)
Lemma ord2ymd_march_first y :
  is_leap y = false ->
  ord2ymd (days_before_year y + 60) = (y, 3, 1).
Proof.
  intros Hleap. unfold is_leap in Hleap.
  unfold ord2ymd, days_before_year, DI400Y, DI100Y, DI4Y. cbv zeta.
  set (n0 := (y - 1) * 365 + (y - 1) / 4 - (y - 1) / 100 + (y - 1) / 400
             + 60 - 1).
  assert (E400 : n0 / 146097 = (y - 1) / 400) by (subst n0; divmod).
  assert (E100 : n0 mod 146097 / 36524 = ((y - 1) / 100) mod 4)
    by (subst n0; divmod).
  assert (E4 : (n0 mod 146097) mod 36524 / 1461 = ((y - 1) / 4) mod 25)
    by (subst n0; divmod).
  assert (E1 : ((n0 mod 146097) mod 36524) mod 1461 / 365 = (y - 1) mod 4)
    by (subst n0; divmod).
  assert (En : (((n0 mod 146097) mod 36524) mod 1461) mod 365 = 59)
    by (subst n0; divmod).
  rewrite En, E1, E4, E100, E400. clear E400 E100 E4 E1 En n0.
  change (Z.shiftr (59 + 50) 5) with 3.
  change (DAYS_BEFORE_MONTH 3) with 59. change (2 <? 3) with true.
  cbn [andb].
  assert (L : ((y - 1) mod 4 =? 3)
              && (negb (((y - 1) / 4) mod 25 =? 24)
                  || (((y - 1) / 100) mod 4 =? 3)) = false).
  { revert Hleap.
    destruct (Z.eqb_spec (y mod 4) 0), (Z.eqb_spec (y mod 100) 0),
      (Z.eqb_spec (y mod 400) 0), (Z.eqb_spec ((y - 1) mod 4) 3),
      (Z.eqb_spec (((y - 1) / 4) mod 25) 24),
      (Z.eqb_spec (((y - 1) / 100) mod 4) 3);
      cbn; intros Hleap; try reflexivity; try discriminate Hleap;
      exfalso; divmod. }
  rewrite L.
  destruct (Z.eqb_spec ((y - 1) mod 4) 4); [exfalso; divmod|].
  destruct (Z.eqb_spec (((y - 1) / 100) mod 4) 4); [exfalso; divmod|].
  cbn. do 2 f_equal. divmod.
Qed.

Lemma check_date_fields_spec y m dd :
  check_date_fields y m dd = true <->
  MINYEAR <= y <= MAXYEAR /\ 1 <= m <= 12 /\ 1 <= dd <= days_in_month y m.
Proof.
  unfold check_date_fields. rewrite !andb_true_iff, !Z.leb_le. tauto.
Qed.

Lemma day_exists_spec y m dd :
  day_exists y m dd = true <->
  1 <= m <= 12 /\ 1 <= dd <= days_in_month y m.
Proof.
  unfold day_exists. rewrite !andb_true_iff, !Z.leb_le. tauto.
Qed.

Lemma new_date_ok y m dd :
  check_date_fields y m dd = true -> new_date y m dd = Ok (mkdate y m dd).
Proof. unfold new_date. now intros ->. Qed.

Lemma new_date_raise y m dd :
  check_date_fields y m dd = false -> new_date y m dd = Raise ValueError.
Proof. unfold new_date. now intros ->. Qed.

Lemma days_before_year_bounds y :
  MINYEAR <= y <= MAXYEAR ->
  0 <= days_before_year y /\ days_before_year y + 366 <= MAXORDINAL + 1.
Proof.
  unfold MINYEAR, MAXYEAR, MAXORDINAL, days_before_year. cbv zeta.
  intros H. divmod.
Qed.

(** The month length depends on the year for February only. *)
Lemma days_in_month_year y y' m :
  1 <= m <= 12 -> m <> 2 -> days_in_month y m = days_in_month y' m.
Proof.
  intros Hm Hne. unfold days_in_month.
  destruct (Z.eqb_spec m 2); [contradiction | reflexivity].
Qed.

Lemma days_in_february y :
  days_in_month y 2 = if is_leap y then 29 else 28.
Proof. unfold days_in_month. simpl. now destruct (is_leap y). Qed.

(** A day of a valid date that the destination year lacks is February
    29, and the destination year is not a leap year. *)
Lemma missing_day_is_feb_29 d y' :
  valid d ->
  day_exists y' (month d) (day d) = false ->
  month d = 2 /\ day d = 29 /\ is_leap y' = false.
Proof.
  destruct d as [y m dd]. unfold valid. simpl.
  rewrite check_date_fields_spec. intros (Hy & Hm & Hd) E.
  destruct (Z.eq_dec m 2) as [->|Hne].
  - rewrite days_in_february in Hd.
    destruct (is_leap y') eqn:L.
    + exfalso. enough (day_exists y' 2 dd = true) by congruence.
      apply day_exists_spec. rewrite days_in_february, L.
      destruct (is_leap y); lia.
    + destruct (Z.eq_dec dd 29) as [->|]; [auto|].
      exfalso. enough (day_exists y' 2 dd = true) by congruence.
      apply day_exists_spec. rewrite days_in_february, L.
      destruct (is_leap y); lia.
  - exfalso. enough (day_exists y' m dd = true) by congruence.
    apply day_exists_spec. rewrite (days_in_month_year y' y) by assumption.
    tauto.
Qed.

(** Outside the years a [date] can hold, both the [try] and the [except]
    branch raise [ValueError]. *)
Lemma date_add_year_out_of_range d years :
  ~ (MINYEAR <= year d + years <= MAXYEAR) ->
  date_add_year d years = Raise ValueError.
Proof.
  intros H.
  assert (C : forall m dd, check_date_fields (year d + years) m dd = false).
  { intros m dd. destruct (check_date_fields _ m dd) eqn:E; [|reflexivity].
    apply check_date_fields_spec in E. tauto. }
  unfold date_add_year, replace_year.
  rewrite !new_date_raise by apply C. reflexivity.
Qed.

(** The claim as stated fails where the destination year is not a year
    of [date]: January 1 exists in the year 10020, but the call raises. *)
Lemma date_add_year_beyond_maxyear :
  valid (mkdate 2020 1 1)
  /\ day_exists (2020 + 8000) 1 1 = true
  /\ date_add_year (mkdate 2020 1 1) 8000 = Raise ValueError
  /\ date_add_year (mkdate 2020 1 1) 8000 <> Ok (mkdate (2020 + 8000) 1 1).
Proof. repeat split; vm_compute; congruence. Qed.

(** C10, as the code has it.  When the destination year is a year of
    [date]: if the day exists there, the result is the same month and day
    in that year; otherwise the date is February 29, the destination year
    is not a leap year, and the result is the date shifted by the days
    between the two first days of January, which is March 1 of the
    destination year. *)
Theorem date_add_year_same_day_or_march_first d years :
  valid d ->
  MINYEAR <= year d + years <= MAXYEAR ->
  if day_exists (year d + years) (month d) (day d)
  then date_add_year d years
       = Ok (mkdate (year d + years) (month d) (day d))
  else month d = 2 /\ day d = 29 /\ is_leap (year d + years) = false
       /\ date_add_year d years
          = date_add d (date_sub (mkdate (year d + years) 1 1)
                                 (mkdate (year d) 1 1))
       /\ date_add_year d years = Ok (mkdate (year d + years) 3 1).
Proof.
  intros Hv Hr.
  destruct (day_exists (year d + years) (month d) (day d)) eqn:E.
  - unfold date_add_year, replace_year. rewrite new_date_ok; [reflexivity|].
    apply check_date_fields_spec. apply day_exists_spec in E. tauto.
  - destruct (missing_day_is_feb_29 d _ Hv E) as (Hm & Hd & L).
    destruct d as [y m dd]; simpl in *; subst m dd.
    unfold valid in Hv; simpl in Hv.
    apply check_date_fields_spec in Hv. destruct Hv as (Hy & _ & _).
    assert (H1 : new_date (y + years) 2 29 = Raise ValueError).
    { apply new_date_raise.
      destruct (check_date_fields _ _ _) eqn:C; [|reflexivity].
      apply check_date_fields_spec in C.
      rewrite days_in_february, L in C. lia. }
    assert (H2 : new_date (y + years) 1 1 = Ok (mkdate (y + years) 1 1)).
    { apply new_date_ok, check_date_fields_spec.
      change (days_in_month (y + years) 1) with 31. lia. }
    assert (H3 : new_date y 1 1 = Ok (mkdate y 1 1)).
    { apply new_date_ok, check_date_fields_spec.
      change (days_in_month y 1) with 31. lia. }
    assert (Hshift : date_add_year (mkdate y 2 29) years
                     = date_add (mkdate y 2 29)
                         (date_sub (mkdate (y + years) 1 1) (mkdate y 1 1))).
    { unfold date_add_year, replace_year. simpl. now rewrite H1, H2, H3. }
    repeat split; try assumption. rewrite Hshift.
    assert (Ho : toordinal (mkdate y 2 29)
                 + date_sub (mkdate (y + years) 1 1) (mkdate y 1 1)
                 = days_before_year (y + years) + 60).
    { unfold date_sub, toordinal, ymd2ord, days_before_month.
      cbn [year month day].
      change (DAYS_BEFORE_MONTH 2) with 31.
      change (DAYS_BEFORE_MONTH 1) with 0.
      change (2 <? 2) with false. change (2 <? 1) with false.
      cbn [andb]. ring. }
    unfold date_add. rewrite Ho.
    pose proof (days_before_year_bounds (y + years) Hr) as B.
    unfold MAXORDINAL in *.
    destruct (Z.ltb_spec 0 (days_before_year (y + years) + 60)); [|lia].
    destruct (Z.leb_spec (days_before_year (y + years) + 60) 3652059);
      [|lia].
    simpl. unfold fromordinal. now rewrite ord2ymd_march_first.
Qed.

End DateFacts.

Lemma date_add_year_same_day_or_march_first_witness :
  (Dates.month (mkdate 2020 2 29) = 2 /\ Dates.day (mkdate 2020 2 29) = 29
   /\ is_leap (2020 + 1) = false
   /\ date_add_year (mkdate 2020 2 29) 1
      = date_add (mkdate 2020 2 29)
          (date_sub (mkdate (2020 + 1) 1 1) (mkdate 2020 1 1))
   /\ date_add_year (mkdate 2020 2 29) 1 = Ok (mkdate (2020 + 1) 3 1))%Z
  /\ date_add_year (mkdate 2019 7 31) 3 = Ok (mkdate (2019 + 3) 7 31)%Z.
Proof.
  split.
  - apply (date_add_year_same_day_or_march_first (mkdate 2020 2 29) 1).
    + reflexivity.
    + unfold MINYEAR, MAXYEAR. simpl. lia.
  - apply (date_add_year_same_day_or_march_first (mkdate 2019 7 31) 3).
    + reflexivity.
    + unfold MINYEAR, MAXYEAR. simpl. lia.
Defined.

(* ================================================================== *)
(** * Further properties of [regex_strip_legalname] *)

Section StripFacts.

Import Str.

Local Open Scope nat_scope.

(** ** Only deletions *)

Lemma subseq_refl s : Subseq s s.
Proof. induction s; [apply SubseqNil | now apply SubseqKeep]. Qed.

Lemma subseq_skip_prefix m a b : Subseq a b -> Subseq a (m ++ b).
Proof.
  intros H. induction m; simpl; [assumption | now apply SubseqDrop].
Qed.

Lemma subseq_length a b : Subseq a b -> String.length a <= String.length b.
Proof. induction 1; simpl; lia. Qed.

Lemma sub_loop_subseq r fuel :
  forall adv p s out,
    sub_loop fuel r "" adv p s = Some out -> Subseq out s.
Proof.
  induction fuel as [|fuel IH]; intros adv p s out H; [discriminate|].
  simpl in H. destruct (match_here r adv p s) as [[p' s']|] eqn:E.
  - apply match_here_inv in E. destruct E as (m & -> & _).
    destruct (sub_loop fuel r "" _ p' s') as [o|] eqn:E'; [|discriminate].
    injection H as <-. simpl. apply subseq_skip_prefix. eapply IH, E'.
  - destruct s as [|c s]; [injection H as <-; constructor|].
    destruct (sub_loop fuel r "" false (Some c) s) as [o|] eqn:E';
      [|discriminate].
    injection H as <-. apply SubseqKeep. eapply IH, E'.
Qed.

(** X1. Each output name is the input name with characters deleted:
    nothing is added, changed or moved. *)
Theorem regex_strip_legalname_only_deletes (raw_names : list string) :
  exists stripped_names,
    regex_strip_legalname raw_names = Some stripped_names
    /\ Forall2 (fun n n' => Subseq n' n) raw_names stripped_names.
Proof.
  induction raw_names as [|n0 rest IH]; simpl.
  - exists []. split; [reflexivity | constructor].
  - destruct (strip_legalname_total n0) as [n0' E0].
    destruct IH as (out & E & HF).
    rewrite E0, E. simpl. exists (n0' :: out). split; [reflexivity|].
    constructor; [|assumption]. now apply sub_loop_subseq in E0.
Qed.

(** ** Names that change *)

(** When the search finds a match, the substitution drops at least the
    characters of one match. *)
Lemma sub_loop_shrinks r fuel :
  forall p s out,
    sub_loop fuel r "" false p s = Some out ->
    search_from r p s = true ->
    String.length out + min_len r <= String.length s.
Proof.
  induction fuel as [|fuel IH]; intros p s out H Hs; [discriminate|].
  simpl in H.
  destruct (match_here r false p s) as [[p' s']|] eqn:E.
  - apply match_here_inv in E. destruct E as (m & -> & Hm & _).
    apply min_len_matches in Hm.
    destruct (sub_loop fuel r "" _ p' s') as [o|] eqn:E'; [|discriminate].
    injection H as <-. apply sub_loop_length in E'.
    rewrite length_append. simpl. lia.
  - destruct s as [|c s]; simpl in Hs; rewrite E in Hs; [discriminate|].
    destruct (sub_loop fuel r "" false (Some c) s) as [o|] eqn:E';
      [|discriminate].
    injection H as <-. apply IH in E'; [|assumption]. simpl. lia.
Qed.

Lemma strip_shrinks n n' :
  has_suffix n = true -> strip_legalname n = Some n' ->
  String.length n' + 2 <= String.length n.
Proof.
  intros Hs H. rewrite <- pattern_min_len.
  eapply sub_loop_shrinks; eassumption.
Qed.

Lemma strip_singleton_inv n n' :
  regex_strip_legalname [n] = Some [n'] -> strip_legalname n = Some n'.
Proof.
  simpl. destruct (strip_legalname n); simpl; [|discriminate].
  now intros [= ->].
Qed.

Lemma strip_unchanged_no_suffix n :
  strip_legalname n = Some n -> has_suffix n = false.
Proof.
  intros H. destruct (has_suffix n) eqn:E; [|reflexivity].
  pose proof (strip_shrinks n n E H). lia.
Qed.

(** X2. A name comes back unchanged exactly when the pattern occurs
    nowhere in it. *)
Theorem regex_strip_legalname_unchanged_iff (n : string) :
  regex_strip_legalname [n] = Some [n] <-> has_suffix n = false.
Proof.
  split.
  - intros H. now apply strip_unchanged_no_suffix, strip_singleton_inv.
  - intros H. apply strip_singleton.
    apply sub_loop_no_match; [assumption | unfold sub_budget; lia].
Qed.

(** X3. A name in which the pattern occurs loses at least two
    characters. *)
Theorem regex_strip_legalname_changed_shorter (n n' : string) :
  has_suffix n = true ->
  regex_strip_legalname [n] = Some [n'] ->
  String.length n' + 2 <= String.length n.
Proof.
  intros Hs H. apply strip_shrinks; [assumption|].
  now apply strip_singleton_inv.
Qed.

Lemma regex_strip_legalname_changed_shorter_witness :
  String.length "AT&T" + 2 <= String.length "AT&T Inc.".
Proof.
  apply (regex_strip_legalname_changed_shorter "AT&T Inc." "AT&T");
    vm_compute; reflexivity.
Defined.

(** ** Tokens inside longer words *)

Lemma matches_lit w : forall p t, Matches (lit w) p w t.
Proof.
  induction w as [|c w IH]; intros p t; simpl; [constructor|].
  apply (MSeq (Chr c) (lit w) p (String c "") w t); [constructor | apply IH].
Qed.

Lemma matches_alts_in r rs p m t :
  In r rs -> Matches r p m t -> Matches (alts rs) p m t.
Proof.
  intros Hin H. induction rs as [|r0 rs IH]; [destruct Hin|].
  destruct Hin as [->|Hin]; simpl.
  - now apply MAltL.
  - apply MAltR. now apply IH.
Qed.

(** A match of one token alone is a match of the whole pattern: the
    separators before it and the trailer after it may be empty. *)
Lemma pattern_matches_token r p m t :
  In r suffix_tokens -> Matches r p m t -> Matches pattern p m t.
Proof.
  intros Hin H. unfold pattern, separators, trailer.
  replace m with ("" ++ (m ++ ("" ++ "")))
    by (simpl; apply append_nil_r).
  apply MSeq; [apply MStarNil|].
  apply MSeq; [now apply (matches_alts_in r)|].
  apply MSeq; apply MOptNone.
Qed.

Lemma plain_token_matches tok p t :
  In tok plain_tokens -> Matches pattern p tok t.
Proof.
  intros Hin.
  assert (H : exists r, In r suffix_tokens /\ Matches r p tok t).
  { unfold plain_tokens in Hin. simpl in Hin.
    repeat (destruct Hin as [<-|Hin];
            [ first
                [ eexists; split; [|apply matches_lit]; simpl; tauto
                | exists (Seq (lit "Corp") (Star (Cls Word))); split;
                  [ simpl; tauto
                  | apply (MSeq (lit "Corp") (Star (Cls Word)) p "Corp" "" t);
                    [apply matches_lit | apply MStarNil] ] ]
            | ]).
    destruct Hin. }
  destruct H as (r & Hin' & H). now apply (pattern_matches_token r).
Qed.

Lemma plain_token_has_suffix a tok b :
  In tok plain_tokens -> has_suffix (a ++ tok ++ b) = true.
Proof.
  intros Hin. destruct (has_suffix (a ++ tok ++ b)) eqn:E; [reflexivity|].
  exfalso.
  apply (proj1 (has_suffix_false _) E a tok b eq_refl).
  now apply plain_token_matches.
Qed.

(** X4. The plain tokens are stripped wherever they stand, also inside a
    longer word: a name that holds one of them anywhere is not returned
    as it is, and loses at least two characters. *)
Theorem regex_strip_legalname_token_inside_word (a tok b : string) :
  In tok plain_tokens ->
  exists n',
    regex_strip_legalname [a ++ tok ++ b] = Some [n']
    /\ n' <> a ++ tok ++ b
    /\ String.length n' + 2 <= String.length (a ++ tok ++ b).
Proof.
  intros Hin. pose proof (plain_token_has_suffix a tok b Hin) as Hs.
  destruct (strip_legalname_total (a ++ tok ++ b)) as [n' E].
  pose proof (strip_shrinks _ _ Hs E) as Hlen.
  exists n'. repeat split; [now apply strip_singleton | | assumption].
  intros ->. lia.
Qed.

Lemma regex_strip_legalname_token_inside_word_witness :
  exists n',
    regex_strip_legalname ["" ++ "Group" ++ "on"] = Some [n']
    /\ n' <> "" ++ "Group" ++ "on"
    /\ String.length n' + 2 <= String.length ("" ++ "Group" ++ "on").
Proof.
  apply (regex_strip_legalname_token_inside_word "" "Group" "on").
  simpl. tauto.
Defined.

(** ** Passes and lists *)

(** X5. A second pass can change the result of the first: deleting a
    match can bring the two halves of a token together. *)
Theorem regex_strip_legalname_not_idempotent :
  exists n once twice,
    regex_strip_legalname [n] = Some [once]
    /\ regex_strip_legalname [once] = Some [twice]
    /\ once <> twice.
Proof.
  exists "Comp Inc any", "Company", "".
  repeat split; try (vm_compute; reflexivity). discriminate.
Qed.

(** X6. The names are stripped one by one: the result for a list put
    together from two lists is put together from their results. *)
Theorem regex_strip_legalname_app (l1 l2 : list string) :
  regex_strip_legalname (l1 ++ l2)
  = match regex_strip_legalname l1, regex_strip_legalname l2 with
    | Some o1, Some o2 => Some (o1 ++ o2)%list
    | _, _ => None
    end.
Proof.
  induction l1 as [|n l1 IH]; simpl.
  - now destruct (regex_strip_legalname l2).
  - destruct (strip_legalname n); [|reflexivity]. rewrite IH.
    destruct (regex_strip_legalname l1), (regex_strip_legalname l2);
      reflexivity.
Qed.

End StripFacts.

(* ================================================================== *)
(** * Further properties of the list utilities *)

Section MoreListFacts.

Context {A : Type}.
Variable A_eq_dec : forall x y : A, {x = y} + {x <> y}.

Local Open Scope nat_scope.
Local Open Scope list_scope.

Implicit Types (l lst : list A) (nested : list (list A)).

Local Abbreviation dedup_from := (remove_duplicates_from A_eq_dec).
Local Abbreviation dedup := (list_remove_duplicates A_eq_dec).

(** ** [list_flatten] *)

(** X7. The flattened list has as many elements as the sublists have
    together. *)
Theorem list_flatten_length nested :
  List.length (list_flatten nested)
  = list_sum (map (@List.length A) nested).
Proof.
  induction nested as [|sub nested IH]; simpl; [reflexivity|].
  now rewrite length_app, IH.
Qed.

(** X8. The elements of the flattened list are the elements of the
    sublists. *)
Theorem list_flatten_in nested (x : A) :
  In x (list_flatten nested) <-> exists sub, In sub nested /\ In x sub.
Proof.
  induction nested as [|sub0 nested IH]; simpl.
  - split; [contradiction | intros (sub & [] & _)].
  - rewrite in_app_iff, IH. split.
    + intros [H | (sub & Hin & H)]; eauto.
    + intros (sub & [<- | Hin] & H); eauto.
Qed.

(** ** [list_remove_duplicates] *)

Lemma remove_duplicates_from_length l :
  forall seen, List.length (dedup_from seen l) <= List.length l.
Proof.
  induction l as [|a l IH]; intros seen; simpl; [lia|].
  destruct (set_contains A_eq_dec a seen); simpl.
  - specialize (IH seen). lia.
  - specialize (IH (set_add A_eq_dec a seen)). lia.
Qed.

Lemma remove_duplicates_from_same_length l :
  forall seen,
    List.length (dedup_from seen l) = List.length l ->
    dedup_from seen l = l.
Proof.
  induction l as [|a l IH]; intros seen H; simpl in *; [reflexivity|].
  destruct (set_contains A_eq_dec a seen); simpl in H.
  - pose proof (remove_duplicates_from_length l seen). lia.
  - f_equal. apply IH. lia.
Qed.

(** A list without duplicates, none of whose elements has been seen, is
    kept as it is. *)
Lemma remove_duplicates_from_nodup l :
  forall seen,
    NoDup l -> (forall x, In x l -> ~ In x seen) ->
    dedup_from seen l = l.
Proof.
  induction l as [|a l IH]; intros seen Hnd Hseen; simpl; [reflexivity|].
  inversion Hnd as [|? ? Ha Hl]; subst.
  destruct (set_contains A_eq_dec a seen) eqn:E.
  - apply set_contains_spec in E. destruct (Hseen a); simpl; auto.
  - f_equal. apply IH; [assumption|].
    intros x Hx. rewrite set_add_spec. intros [->|Hin]; [contradiction|].
    apply (Hseen x); simpl; auto.
Qed.

Lemma dedup_nodup_id l : NoDup l -> dedup l = l.
Proof.
  intros H. apply remove_duplicates_from_nodup; [assumption|].
  intros x _ [].
Qed.

(** X9. Removing duplicates twice is removing them once. *)
Theorem list_remove_duplicates_idempotent l :
  list_remove_duplicates A_eq_dec (list_remove_duplicates A_eq_dec l)
  = list_remove_duplicates A_eq_dec l.
Proof.
  apply dedup_nodup_id. apply nodup_remove_duplicates_from.
Qed.

(** X10. The list is returned as it is exactly when it has no
    duplicates. *)
Theorem list_remove_duplicates_fixpoint l :
  list_remove_duplicates A_eq_dec l = l <-> NoDup l.
Proof.
  split.
  - intros <-. apply nodup_remove_duplicates_from.
  - apply dedup_nodup_id.
Qed.

(** X11. The output is never longer than the input, and has the same
    length only when the input has no duplicates. *)
Theorem list_remove_duplicates_length l :
  List.length (list_remove_duplicates A_eq_dec l) <= List.length l
  /\ (List.length (list_remove_duplicates A_eq_dec l) = List.length l
      <-> NoDup l).
Proof.
  split; [apply remove_duplicates_from_length|]. split.
  - intros H. apply remove_duplicates_from_same_length in H.
    unfold list_remove_duplicates. rewrite <- H.
    apply nodup_remove_duplicates_from.
  - intros H. now rewrite dedup_nodup_id.
Qed.

(** ** [list_batch] *)

(** X12. A batch size that is not positive never yields a chunk: zero
    is refused with [ValueError], and for a negative size the generator
    ends at once, so the elements of the list are dropped without an
    error. *)
Theorem list_batch_nonpositive lst (n : Z) :
  (n <= 0)%Z ->
  list_batch lst n = if (n =? 0)%Z then Raise ValueError else Ok [].
Proof.
  intros Hn. unfold list_batch, range, range_len.
  destruct (Z.eqb_spec n 0); [reflexivity|].
  destruct (Z.ltb_spec 0 n); [lia|].
  destruct (Z.ltb_spec (Z.of_nat (List.length lst)) 0); [lia|].
  reflexivity.
Qed.

(** The chunks, one for each offset of the range. *)
Lemma list_batch_chunks lst (n : Z) :
  (0 < n)%Z ->
  list_batch lst n
  = Ok (map (fun j => firstn (Z.to_nat n) (skipn (j * Z.to_nat n) lst))
          (seq 0 (Z.to_nat (range_len 0 (Z.of_nat (List.length lst)) n)))).
Proof.
  intros Hn. unfold list_batch, range.
  destruct (Z.eqb_spec n 0); [lia|]. cbn [bind]. f_equal.
  rewrite map_map. apply map_ext_in. intros j Hj. apply in_seq in Hj.
  destruct (range_len_bounds (Z.of_nat (List.length lst)) n
              ltac:(lia) Hn) as [Hk _].
  cbv zeta in Hk. rewrite Z.add_0_l, slice_chunk by nia.
  do 2 f_equal. nia.
Qed.

Lemma range_len_ceil (len n : Z) :
  (0 <= len)%Z -> (0 < n)%Z ->
  range_len 0 len n = ((len + n - 1) / n)%Z.
Proof.
  intros Hlen Hn. unfold range_len.
  destruct (Z.ltb_spec 0 n); [|lia].
  destruct (Z.ltb_spec 0 len).
  - rewrite Z.sub_0_r.
    replace (len + n - 1)%Z with (len - 1 + 1 * n)%Z by ring.
    rewrite Z.div_add by lia. reflexivity.
  - replace len with 0%Z by lia. symmetry. apply Z.div_small. lia.
Qed.

(** X13. For a batch size [n > 0] there are [ceil(len(lst) / n)] chunks,
    and every chunk holds at least one and at most [n] elements. *)
Theorem list_batch_count lst (n : Z) :
  (0 < n)%Z ->
  exists chunks,
    list_batch lst n = Ok chunks
    /\ Z.of_nat (List.length chunks)
       = ((Z.of_nat (List.length lst) + n - 1) / n)%Z
    /\ forall c, In c chunks ->
         (1 <= Z.of_nat (List.length c) <= n)%Z.
Proof.
  intros Hn. rewrite list_batch_chunks by assumption.
  eexists. split; [reflexivity|].
  destruct (range_len_bounds (Z.of_nat (List.length lst)) n
              ltac:(lia) Hn) as [Hk Hlen].
  cbv zeta in Hk, Hlen. split.
  - rewrite length_map, length_seq, <- range_len_ceil by lia. lia.
  - intros c Hc. apply in_map_iff in Hc. destruct Hc as (j & <- & Hj).
    apply in_seq in Hj. rewrite length_firstn, length_skipn. nia.
Qed.

(** X14. The chunk at index [i] holds the elements at the indices
    [i * n] to [i * n + n - 1] of the list, as far as there are any. *)
Theorem list_batch_nth lst (n : Z) chunks (i : nat) (c : list A) :
  (0 < n)%Z ->
  list_batch lst n = Ok chunks ->
  nth_error chunks i = Some c ->
  c = firstn (Z.to_nat n) (skipn (i * Z.to_nat n) lst).
Proof.
  intros Hn H Hi. rewrite list_batch_chunks in H by assumption.
  injection H as <-. rewrite nth_error_map, nth_error_seq in Hi.
  destruct (Nat.ltb i _); [|discriminate].
  simpl in Hi. now injection Hi as <-.
Qed.

(** X15. A batch size that is at least the length of the list gives the
    whole list as the only chunk, and no chunk at all for the empty
    list. *)
Theorem list_batch_single lst (n : Z) :
  (0 < n)%Z -> (Z.of_nat (List.length lst) <= n)%Z ->
  list_batch lst n = Ok (match lst with [] => [] | _ :: _ => [lst] end).
Proof.
  intros Hn Hlen. rewrite list_batch_chunks by assumption.
  rewrite range_len_ceil by lia. destruct lst as [|x lst].
  - simpl List.length. rewrite Z.div_small by lia. reflexivity.
  - replace ((Z.of_nat (List.length (x :: lst)) + n - 1) / n)%Z with 1%Z.
    + change (Z.to_nat 1) with 1. cbn [seq map Nat.mul skipn].
      rewrite firstn_all2 by lia. reflexivity.
    + symmetry. simpl List.length in *.
      replace (Z.of_nat (S (List.length lst)) + n - 1)%Z
        with (Z.of_nat (List.length lst) + 1 * n)%Z by lia.
      rewrite Z.div_add, Z.div_small by lia. reflexivity.
Qed.

End MoreListFacts.

Lemma list_batch_count_witness :
  exists chunks,
    list_batch [1; 2; 3; 4; 5; 6; 7]%list 3 = Ok chunks
    /\ Z.of_nat (List.length chunks)
       = ((Z.of_nat (List.length [1; 2; 3; 4; 5; 6; 7]%list) + 3 - 1) / 3)%Z
    /\ forall c, In c chunks ->
         (1 <= Z.of_nat (List.length c) <= 3)%Z.
Proof.
  apply (list_batch_count [1; 2; 3; 4; 5; 6; 7]%list 3). reflexivity.
Defined.

Lemma list_batch_nonpositive_witness :
  list_batch [1; 2; 3]%list (-2) = Ok []%list
  /\ list_batch [1; 2; 3]%list 0 = Raise ValueError.
Proof.
  split.
  - apply (list_batch_nonpositive [1; 2; 3]%list (-2)). lia.
  - apply (list_batch_nonpositive [1; 2; 3]%list 0). lia.
Defined.

Lemma list_batch_nth_witness :
  [4; 5; 6]%list
  = firstn (Z.to_nat 3) (skipn (1 * Z.to_nat 3) [1; 2; 3; 4; 5; 6; 7]%list).
Proof.
  apply (list_batch_nth [1; 2; 3; 4; 5; 6; 7]%list 3
           [[1; 2; 3]; [4; 5; 6]; [7]]%list 1 [4; 5; 6]%list);
    reflexivity.
Defined.

Lemma list_batch_single_witness :
  list_batch [1; 2; 3]%list 5 = Ok [[1; 2; 3]]%list.
Proof.
  apply (list_batch_single [1; 2; 3]%list 5); [reflexivity | simpl; lia].
Defined.

(* ================================================================== *)
(** * Further properties of [date_add_year] *)

Section MoreDateFacts.

Local Open Scope Z_scope.

Lemma in_years_dec y : in_years y \/ ~ in_years y.
Proof. unfold in_years, MINYEAR, MAXYEAR. lia. Qed.

Lemma valid_in_years d : valid d -> in_years (year d).
Proof. intros H. apply check_date_fields_spec in H. apply H. Qed.

(** A day other than February 29 exists in every year. *)
Lemma day_exists_every_year d y' :
  valid d -> ~ (month d = 2 /\ day d = 29) ->
  day_exists y' (month d) (day d) = true.
Proof.
  intros Hv Hn. destruct (day_exists y' (month d) (day d)) eqn:E;
    [reflexivity|].
  destruct (missing_day_is_feb_29 d y' Hv E) as (Hm & Hd & _). tauto.
Qed.

Lemma date_add_year_same_day d years :
  valid d -> in_years (year d + years) ->
  day_exists (year d + years) (month d) (day d) = true ->
  date_add_year d years = Ok (mkdate (year d + years) (month d) (day d)).
Proof.
  intros Hv Hr E. unfold date_add_year, replace_year.
  rewrite new_date_ok; [reflexivity|].
  apply check_date_fields_spec. apply day_exists_spec in E.
  unfold in_years in Hr. tauto.
Qed.

(** From February 29 to a year that is not a leap year: the [except]
    branch lands on March 1. *)
Lemma date_add_year_feb_29 y years :
  in_years y -> in_years (y + years) -> is_leap (y + years) = false ->
  date_add_year (mkdate y 2 29) years = Ok (mkdate (y + years) 3 1).
Proof.
  unfold in_years. intros Hy Hr L.
  assert (H1 : new_date (y + years) 2 29 = Raise ValueError).
  { apply new_date_raise.
    destruct (check_date_fields _ _ _) eqn:C; [|reflexivity].
    apply check_date_fields_spec in C.
    rewrite days_in_february, L in C. lia. }
  assert (H2 : new_date (y + years) 1 1 = Ok (mkdate (y + years) 1 1)).
  { apply new_date_ok, check_date_fields_spec.
    change (days_in_month (y + years) 1) with 31. lia. }
  assert (H3 : new_date y 1 1 = Ok (mkdate y 1 1)).
  { apply new_date_ok, check_date_fields_spec.
    change (days_in_month y 1) with 31. lia. }
  unfold date_add_year, replace_year. cbn [year month day].
  rewrite H1, H2, H3. cbn [bind].
  assert (Ho : toordinal (mkdate y 2 29)
               + date_sub (mkdate (y + years) 1 1) (mkdate y 1 1)
               = days_before_year (y + years) + 60).
  { unfold date_sub, toordinal, ymd2ord, days_before_month.
    cbn [year month day].
    change (DAYS_BEFORE_MONTH 2) with 31.
    change (DAYS_BEFORE_MONTH 1) with 0.
    change (2 <? 2) with false. change (2 <? 1) with false.
    cbn [andb]. ring. }
  unfold date_add. rewrite Ho.
  pose proof (days_before_year_bounds (y + years) Hr) as B.
  unfold MAXORDINAL in *.
  destruct (Z.ltb_spec 0 (days_before_year (y + years) + 60)); [|lia].
  destruct (Z.leb_spec (days_before_year (y + years) + 60) 3652059);
    [|lia].
  simpl. unfold fromordinal. now rewrite ord2ymd_march_first.
Qed.

(** The result for a date and a destination year that [date] can hold. *)
Lemma date_add_year_result d years :
  valid d -> in_years (year d + years) ->
  date_add_year d years
  = Ok (if day_exists (year d + years) (month d) (day d)
        then mkdate (year d + years) (month d) (day d)
        else mkdate (year d + years) 3 1).
Proof.
  intros Hv Hr.
  destruct (day_exists (year d + years) (month d) (day d)) eqn:E.
  - now apply date_add_year_same_day.
  - destruct (missing_day_is_feb_29 d _ Hv E) as (Hm & Hd & L).
    pose proof (valid_in_years d Hv) as Hy.
    destruct d as [y m dd]. simpl in *. subst m dd.
    now apply date_add_year_feb_29.
Qed.

Lemma valid_march_first y : in_years y -> valid (mkdate y 3 1).
Proof.
  unfold in_years. intros H. apply check_date_fields_spec. simpl.
  change (days_in_month y 3) with 31. lia.
Qed.


(** X17. A date that is returned is a date of the destination year, with
    fields that the constructor accepts. *)
Theorem date_add_year_result_valid d years d' :
  valid d ->
  date_add_year d years = Ok d' ->
  valid d' /\ year d' = year d + years.
Proof.
  intros Hv H. destruct (in_years_dec (year d + years)) as [Hr|Hr].
  - rewrite date_add_year_result in H by assumption.
    injection H as <-.
    destruct (day_exists (year d + years) (month d) (day d)) eqn:E.
    + split; [|reflexivity]. apply check_date_fields_spec. simpl.
      apply day_exists_spec in E. unfold in_years in Hr. tauto.
    + split; [now apply valid_march_first | reflexivity].
  - rewrite date_add_year_out_of_range in H by assumption. discriminate.
Qed.

(** X18. Adding zero years gives the date back. *)
Theorem date_add_year_zero d : valid d -> date_add_year d 0 = Ok d.
Proof.
  intros Hv. pose proof (valid_in_years d Hv) as Hy.
  rewrite date_add_year_result by (rewrite ?Z.add_0_r; assumption).
  rewrite Z.add_0_r.
  replace (day_exists (year d) (month d) (day d)) with true.
  - now destruct d.
  - symmetry. apply day_exists_spec.
    apply check_date_fields_spec in Hv. tauto.
Qed.

(** X19. Away from February 29 years add up: adding [a] years and then
    [b] years is adding [a + b] years, as long as both destination years
    are years of [date]. *)
Theorem date_add_year_compose d (a b : Z) :
  valid d -> ~ (month d = 2 /\ day d = 29) ->
  in_years (year d + a) -> in_years (year d + a + b) ->
  (d1 <- date_add_year d a ;; date_add_year d1 b)
  = date_add_year d (a + b).
Proof.
  intros Hv Hn Ha Hb.
  rewrite (date_add_year_same_day d a) by
    (try apply day_exists_every_year; assumption).
  cbn [bind].
  assert (Hv1 : valid (mkdate (year d + a) (month d) (day d))).
  { apply check_date_fields_spec. simpl.
    pose proof (day_exists_every_year d (year d + a) Hv Hn) as E.
    apply day_exists_spec in E. unfold in_years in Ha. tauto. }
  rewrite (date_add_year_same_day _ b Hv1) by
    (simpl; try apply (day_exists_every_year d); assumption).
  rewrite (date_add_year_same_day d (a + b)) by
    (try apply day_exists_every_year; try rewrite Z.add_assoc; assumption).
  simpl. now rewrite Z.add_assoc.
Qed.

(** X20. From February 29 the way back is lost: adding years that lead
    to a year that is not a leap year, and subtracting them again, gives
    March 1 of the year of departure. *)
Theorem date_add_year_feb_29_round_trip (y years : Z) :
  valid (mkdate y 2 29) ->
  in_years (y + years) -> is_leap (y + years) = false ->
  (d1 <- date_add_year (mkdate y 2 29) years ;; date_add_year d1 (- years))
  = Ok (mkdate y 3 1).
Proof.
  intros Hv Hr L. pose proof (valid_in_years _ Hv) as Hy. simpl in Hy.
  rewrite date_add_year_feb_29 by assumption. cbn [bind].
  rewrite date_add_year_same_day.
  - simpl. f_equal. f_equal. ring.
  - now apply valid_march_first.
  - simpl. now replace (y + years + - years) with y by ring.
  - simpl. replace (y + years + - years) with y by ring.
    apply day_exists_spec. change (days_in_month y 3) with 31. lia.
Qed.

End MoreDateFacts.


Lemma date_add_year_result_valid_witness :
  valid (mkdate 2021 3 1)
  /\ Dates.year (mkdate 2021 3 1) = (Dates.year (mkdate 2020 2 29) + 1)%Z.
Proof.
  apply (date_add_year_result_valid (mkdate 2020 2 29) 1 (mkdate 2021 3 1));
    reflexivity.
Defined.

Lemma date_add_year_zero_witness :
  date_add_year (mkdate 2020 2 29) 0 = Ok (mkdate 2020 2 29).
Proof. apply (date_add_year_zero (mkdate 2020 2 29)). reflexivity. Defined.

Lemma date_add_year_compose_witness :
  (d1 <- date_add_year (mkdate 2019 7 31) 3 ;; date_add_year d1 (-5))
  = date_add_year (mkdate 2019 7 31) (3 + -5).
Proof.
  apply (date_add_year_compose (mkdate 2019 7 31) 3 (-5)).
  - reflexivity.
  - simpl. lia.
  - unfold in_years, MINYEAR, MAXYEAR. simpl. lia.
  - unfold in_years, MINYEAR, MAXYEAR. simpl. lia.
Defined.

Lemma date_add_year_feb_29_round_trip_witness :
  (d1 <- date_add_year (mkdate 2020 2 29) 1 ;; date_add_year d1 (- 1))
  = Ok (mkdate 2020 3 1).
Proof.
  apply (date_add_year_feb_29_round_trip 2020 1).
  - reflexivity.
  - unfold in_years, MINYEAR, MAXYEAR. lia.
  - reflexivity.
Defined.

(* ================================================================== *)
(** * [sleep_countdown] *)

Import Countdown.

Section CountdownFacts.

Local Open Scope Z_scope.

Implicit Types (w : world) (sleep : sleep_name).

(** The values of [range(duration, 0, -print_step)] for a positive step:
    [duration], [duration - print_step], ... as long as they are
    positive. *)
Lemma countdown_range (duration print_step : Z) :
  0 < print_step ->
  Lists.range duration 0 (- print_step)
  = Ok (map (fun i => duration + Z.of_nat i * - print_step)
          (seq 0 (Z.to_nat (if 0 <? duration
                            then (duration - 1) / print_step + 1
                            else 0)))).
Proof.
  intros Hs. unfold range, range_len.
  destruct (Z.eqb_spec (- print_step) 0); [lia|].
  destruct (Z.ltb_spec 0 (- print_step)); [lia|].
  now rewrite Z.opp_involutive, Z.sub_0_r.
Qed.

(** X21. With a positive step and a duration that is not positive the
    call returns at once. *)
Theorem sleep_countdown_nothing_to_wait sleep (duration print_step : Z) w :
  duration <= 0 -> 0 < print_step ->
  sleep_countdown sleep duration print_step w = (w, None).
Proof.
  intros Hd Hs. unfold sleep_countdown.
  rewrite countdown_range by assumption.
  destruct (Z.ltb_spec 0 duration); [lia | reflexivity].
Qed.

Lemma sleep_countdown_nothing_to_wait_witness :
  sleep_countdown Unbound (-3) 2 start = (start, None).
Proof.
  apply (sleep_countdown_nothing_to_wait Unbound (-3) 2 start); lia.
Defined.

(** X22. As the module is written, with [sleep] unbound, a countdown that
    has something to wait for ends with [NameError] in its first round. *)
Theorem sleep_countdown_unbound_sleep (duration print_step : Z) w :
  0 < duration -> 0 < print_step ->
  sleep_countdown Unbound duration print_step w = (w, Some NameError).
Proof.
  intros Hd Hs. unfold sleep_countdown.
  rewrite countdown_range by assumption.
  destruct (Z.ltb_spec 0 duration); [|lia].
  pose proof (Z.div_pos (duration - 1) print_step ltac:(lia) Hs).
  destruct (Z.to_nat ((duration - 1) / print_step + 1)) eqn:E; [lia|].
  reflexivity.
Qed.

Lemma sleep_countdown_unbound_sleep_witness :
  sleep_countdown Unbound 10 2 start = (start, Some NameError).
Proof. apply (sleep_countdown_unbound_sleep 10 2 start); lia. Defined.

Lemma countdown_loop_unbound (print_step : Z) (idx : list Z) w :
  fst (countdown_loop Unbound print_step idx w) = w.
Proof. destruct idx; reflexivity. Qed.

(** X23. As the module is written, with [sleep] unbound, no call ever
    sleeps or writes anything. *)
Theorem sleep_countdown_unbound_no_effect (duration print_step : Z) w :
  fst (sleep_countdown Unbound duration print_step w) = w.
Proof.
  unfold sleep_countdown.
  destruct (range duration 0 (- print_step)); [|reflexivity].
  apply countdown_loop_unbound.
Qed.








End CountdownFacts.
